(** * The load-balancing handler of go-chassis: [core/handler/loadbalance_handler.go]

    A shallow embedding of [LBHandler] (endpoint selection, the no-retry and
    the retry paths, the session-token resolver) with the properties that the
    design document states about it.

    The handler talks to a number of collaborators that live in other
    packages (configuration, the strategy registry, the selection engine,
    the rest of the handler chain, the logger, the back-off policy).  They
    are the fields of the class [Collaborators]; every call to one of them
    is recorded in a trace of events, and the statements below are about
    that trace. *)

From Stdlib Require Import ZArith String Ascii List Lia.
From stdpp Require Import base option gmap strings list sorting.

Local Open Scope string_scope.
Local Open Scope Z_scope.

(** ** Go's [int]: 64 bits, two's complement *)

Module Int.

Definition min : Z := - 2 ^ 63.
Definition max : Z := 2 ^ 63 - 1.

(** The value that a 64-bit register holds after an operation whose
    mathematical result is [z]. *)
Definition wrap (z : Z) : Z := (z + 2 ^ 63) mod 2 ^ 64 - 2 ^ 63.

Definition add (a b : Z) : Z := wrap (a + b).

End Int.

(** ** Strings *)

Module Strings.

(** [strings.Split(s, sep)] for a non-empty [sep]: the fields between the
    leftmost, non-overlapping occurrences of [sep].  [skip] counts the bytes
    of a separator that was recognised and is still being stepped over;
    [field] is the field read so far. *)
Fixpoint Split_from (sep : string) (skip : nat) (field s : string) : list string :=
  match s with
  | EmptyString => [field]
  | String c rest =>
      match skip with
      | S skip' => Split_from sep skip' field rest
      | O =>
          if String.prefix sep s
          then field :: Split_from sep (String.length sep - 1) "" rest
          else Split_from sep 0 (field ++ String c "") rest
      end
  end.

(** With an empty separator Go cuts after every character. *)
Fixpoint explode (s : string) : list string :=
  match s with
  | EmptyString => []
  | String c rest => String c "" :: explode rest
  end.

Definition Split (s sep : string) : list string :=
  match sep with
  | EmptyString => explode s
  | _ => Split_from sep 0 "" s
  end.

(** [strings.Join]. *)
Fixpoint Join (elems : list string) (sep : string) : string :=
  match elems with
  | [] => ""
  | [e] => e
  | e :: rest => e ++ sep ++ Join rest sep
  end.

(** Does the byte [c] occur in [s]? *)
Fixpoint has_byte (c : ascii) (s : string) : bool :=
  match s with
  | EmptyString => false
  | String d rest => if Ascii.eqb c d then true else has_byte c rest
  end.


(** Modelled from the spec: the value portion of a text in [key=value]
    form, everything after the first [=]; none when the text has no [=]. *)
Fixpoint after_first_equals (s : string) : option string :=
  match s with
  | EmptyString => None
  | String c rest => if Ascii.eqb c "=" then Some rest else after_first_equals rest
  end.

End Strings.

(** ** [fmt]: the fragment of [Sprintf] that the handler uses *)

Module Fmt.

(** [%v] of a [map[string]string]: the entries [key:value], sorted by key
    (byte by byte, as Go compares strings), between [map[] and []]. *)
Definition entry (kv : string * string) : string := fst kv ++ ":" ++ snd kv.

Definition key_le (a b : string * string) : Prop := String.leb (fst a) (fst b) = true.

#[global] Instance key_le_dec a b : Decision (key_le a b).
Proof. unfold key_le. apply _. Defined.

Definition map_v (m : list (string * string)) : string :=
  "map[" ++ Strings.Join (map entry (merge_sort key_le m)) " " ++ "]".

(** [Sprintf format operand] with one operand of type [map[string]string].
    The directives covered are [%v] and [%%]: the first [%v] prints the
    operand, a later one has no operand left, and an operand that no
    directive used is reported at the end.  Any other directive (flags,
    widths, other verbs) is outside this fragment: [None]. *)
Fixpoint Sprintf_from (format : string) (operand : option string) : option string :=
  match format with
  | EmptyString =>
      match operand with
      | Some a => Some ("%!(EXTRA map[string]string=" ++ a ++ ")")
      | None => Some ""
      end
  | String c rest =>
      if Ascii.eqb c "%" then
        match rest with
        | String d rest' =>
            if Ascii.eqb d "v" then
              match operand with
              | Some a => option_map (String.append a) (Sprintf_from rest' None)
              | None => option_map (String.append "%!v(MISSING)") (Sprintf_from rest' None)
              end
            else if Ascii.eqb d "%" then option_map (String "%") (Sprintf_from rest' operand)
            else None
        | EmptyString => None
        end
      else option_map (String c) (Sprintf_from rest operand)
  end.

Definition Sprintf (format : string) (m : list (string * string)) : option string :=
  Sprintf_from format (Some (map_v m)).

End Fmt.

(** ** Data model *)

(** Go's [error] values.  [errors_New] stands for [errors.New] and for the
    errors of collaborators whose only content is their text; [LBError] is
    [loadbalancer.LBError]; [PermanentError] is the wrapper that
    [backoff.Permanent] puts around an error. *)
Inductive error : Type :=
| errors_New (text : string)
| LBError (Message : string)
| PermanentError (cause : error).

Definition backoff_Permanent (err : error) : error := PermanentError err.

(** [invocation.Response]. *)
Record Response : Type := {
  Status : Z;
  Result : string;
  Err : option error
}.

(** [&invocation.Response{}] *)
Definition Response_zero : Response := {| Status := 0; Result := ""; Err := None |}.

(** Modelled from the spec: the transport-native request object of package
    [rest], of which the handler reads one named cookie.  The cookies are
    kept in header order; a name that is absent reads as the empty string. *)
Record Request : Type := { Cookies : list (string * string) }.

Fixpoint assoc (key : string) (m : list (string * string)) : option string :=
  match m with
  | [] => None
  | (k, v) :: rest => if String.eqb key k then Some v else assoc key rest
  end.

Definition GetCookie (req : Request) (key : string) : string :=
  default "" (assoc key (Cookies req)).

(** The dynamic type of [Invocation.Args]: a [*rest.Request] or anything
    else. *)
Inductive Arguments : Type :=
| rest_Request (req : Request)
| other_args (payload : string).

(** Modelled from the spec: [session.GetContextMetadata], the generic
    metadata of a call, read by key; an absent key reads as the empty
    string. *)
Definition GetContextMetadata (ctx : gmap string string) (key : string) : string :=
  default "" (ctx !! key).

(** [registry.MicroServiceInstance].  A Go map is iterated in an order that
    the language leaves open: [EndpointsMap] lists the entries of the map in
    the order in which this instance's map is traversed, and a key is looked
    up with [assoc]. *)
Record MicroServiceInstance : Type := {
  InstanceID : string;
  DefaultProtocol : string;
  EndpointsMap : list (string * string)
}.

(** [invocation.Invocation], the call context. *)
Record Invocation : Type := {
  Endpoint : string;
  Protocol : string;
  SourceServiceID : string;
  SourceMicroService : string;
  MicroServiceName : string;
  Strategy : string;
  Filters : list string;
  RouteTags : gmap string string;
  Args : Arguments;
  Ctx : gmap string string
}.

Definition with_Endpoint (ep : string) (i : Invocation) : Invocation :=
  {| Endpoint := ep; Protocol := Protocol i; SourceServiceID := SourceServiceID i;
     SourceMicroService := SourceMicroService i; MicroServiceName := MicroServiceName i;
     Strategy := Strategy i; Filters := Filters i; RouteTags := RouteTags i;
     Args := Args i; Ctx := Ctx i |}.

Definition with_Protocol (p : string) (i : Invocation) : Invocation :=
  {| Endpoint := Endpoint i; Protocol := p; SourceServiceID := SourceServiceID i;
     SourceMicroService := SourceMicroService i; MicroServiceName := MicroServiceName i;
     Strategy := Strategy i; Filters := Filters i; RouteTags := RouteTags i;
     Args := Args i; Ctx := Ctx i |}.

Definition with_Strategy (name : string) (i : Invocation) : Invocation :=
  {| Endpoint := Endpoint i; Protocol := Protocol i; SourceServiceID := SourceServiceID i;
     SourceMicroService := SourceMicroService i; MicroServiceName := MicroServiceName i;
     Strategy := name; Filters := Filters i; RouteTags := RouteTags i;
     Args := Args i; Ctx := Ctx i |}.

Definition with_Filters (fs : list string) (i : Invocation) : Invocation :=
  {| Endpoint := Endpoint i; Protocol := Protocol i; SourceServiceID := SourceServiceID i;
     SourceMicroService := SourceMicroService i; MicroServiceName := MicroServiceName i;
     Strategy := Strategy i; Filters := fs; RouteTags := RouteTags i;
     Args := Args i; Ctx := Ctx i |}.

(** [backoff.BackOff] after [Reset]: the answer of the [k]-th call of
    [NextBackOff], a duration in nanoseconds or [Stop]. *)
Definition BackOff : Type := nat -> Z.

Definition Stop : Z := -1.

(** What one [chain.Next] did: the responses it handed to the callback, in
    order ([None] is a nil response), and what it left behind in the chain
    cursor, the call context and the collaborators' state. *)
Record Advanced (W : Type) : Type := {
  reported : list (option Response);
  index_after : Z;
  call_after : Invocation;
  world_after : W
}.
Arguments reported {W} _.
Arguments index_after {W} _.
Arguments call_after {W} _.
Arguments world_after {W} _.

(** ** The collaborators *)

(** Everything the handler calls outside its own file.  [World] is the
    state these collaborators keep (configuration, registry, the state of
    the selection strategies, whatever the rest of the chain does). *)
Class Collaborators : Type := {
  World : Type;
  StrategyT : Type;
  (* package config *)
  GetStrategyName : World -> string -> string -> string;
  GetServerListFilters : World -> list string;
  RetryEnabled : World -> string -> string -> bool;
  GetRetryOnSame : World -> string -> string -> Z;
  GetRetryOnNext : World -> string -> string -> Z;
  GetBackOff : World -> string -> string -> BackOff;
  (* package archaius *)
  GetString : World -> string -> string -> string;
  (* package loadbalancer *)
  GetStrategyPlugin : World -> string -> (unit -> StrategyT) + error;
  BuildStrategy :
    World -> string -> string -> string -> string -> list string -> StrategyT ->
    gmap string string -> (StrategyT + error) * World;
  Pick : World -> StrategyT -> (MicroServiceInstance + error) * World;
  LBError_Error : string -> string;
  StrategySessionStickiness : string;
  (* package common *)
  LBSessionID : string;
  (* handler.Chain *)
  Next : World -> Z -> Invocation -> Advanced World
}.

(** ** Events *)

(** Why a run ended without returning. *)
Inductive Stopped : Type :=
| Panicked (what : string)      (* a Go panic *)
| OutOfFuel                     (* the bound on the iterations of backoff.Retry is used up *)
| Unmodelled (what : string).   (* the code left the fragment of Go that is modelled *)

(** How a call of [getEndpoint] ended. *)
Inductive Selection : Type :=
| Chose (ep : string)           (* return ep, nil *)
| Refused (err : error)         (* return "", err *)
| Crashed (why : Stopped).      (* it did not return *)

(** One event per call that leaves the handler, and one per selection. *)
Inductive Event : Type :=
| Resolve (name : string) (found : bool)
    (* loadbalancer.GetStrategyPlugin(name) *)
| Logged (cause : option error) (text : string)
    (* lager.Logger.Errorf(cause, text) *)
| Built (protocol sessionID : string) (filters : list string) (ok : bool)
    (* loadbalancer.BuildStrategy(...) *)
| Picked (r : MicroServiceInstance + error)
    (* s.Pick() *)
| Selected (how : Selection)
    (* getEndpoint ended *)
| Advance (index : Z) (call : Invocation) (calls : list (option Response))
    (* chain.Next(i, ...) entered with this cursor and this call context *)
| BackedOff (next : Z)
    (* lbBackoff.NextBackOff() *)
| Callback (r : option Response).
    (* cb(r), the callback of Handle *)

(** ** Reading a trace *)

(** The response that the callback of [operation] holds once the chain has
    handed it [calls], when it held [held] before: the last one that is not
    nil. *)
Definition latest (calls : list (option Response)) (held : option Response)
  : option Response :=
  fold_left (fun acc r => match r with Some resp => Some resp | None => acc end) calls held.

(** The error that the callback of [operation] holds then, when it held
    [err] before. *)
Definition verdict_from (calls : list (option Response)) (err : option error)
  : option error :=
  fold_left (fun acc r => match r with Some resp => Err resp | None => acc end) calls err.

(** What one advance of the chain reported: the error of the last response,
    none if that response has none or if there was no response. *)
Definition verdict (calls : list (option Response)) : option error :=
  verdict_from calls None.

Definition permanent (err : error) : Prop :=
  match err with PermanentError _ => True | _ => False end.

(** The advances of the chain: cursor, call context and responses. *)
Definition advances (evs : list Event) : list (Z * Invocation * list (option Response)) :=
  omap (fun e => match e with
                 | Advance index call calls => Some (index, call, calls)
                 | _ => None
                 end) evs.

(** The responses given to the callback of [Handle]. *)
Definition callbacks (evs : list Event) : list (option Response) :=
  omap (fun e => match e with Callback r => Some r | _ => None end) evs.

(** How the selections ended. *)
Definition selections (evs : list Event) : list Selection :=
  omap (fun e => match e with Selected how => Some how | _ => None end) evs.

(** The names that were looked up in the strategy registry. *)
Definition resolutions (evs : list Event) : list string :=
  omap (fun e => match e with Resolve name _ => Some name | _ => None end) evs.

(** The protocol and the filters that the selection engine was given. *)
Definition builds (evs : list Event) : list (string * list string) :=
  omap (fun e => match e with
                 | Built protocol _ filters _ => Some (protocol, filters)
                 | _ => None
                 end) evs.

(** The events after which the retry sequence goes no further: an advance
    of the chain that reported no error, and a selection that did not choose
    an endpoint. *)
Definition decisive (e : Event) : Prop :=
  match e with
  | Advance _ _ calls => verdict calls = None
  | Selected (Chose _) => False
  | Selected _ => True
  | _ => False
  end.

(** The errors that the advances of the chain reported, in order. *)
Definition observed (evs : list Event) : list (option error) :=
  map (fun a => verdict a.2) (advances evs).

(** A run in which every selection chooses an endpoint, every advance of
    the chain reports an error that is not permanent, and the back-off
    policy never says [Stop]. *)
Definition steady (e : Event) : Prop :=
  match e with
  | Selected how => exists ep, how = Chose ep
  | Advance _ _ calls => exists err, verdict calls = Some err /\ ~ permanent err
  | BackedOff next => next <> Stop
  | _ => True
  end.

(** [each PR PB PA] holds of a registry lookup whose name satisfies [PR],
    of a call of the selection engine whose protocol and filters satisfy
    [PB], of an advance of the chain that satisfies [PA], and of every
    other event. *)
Definition each (PR : string -> Prop) (PB : string * list string -> Prop)
    (PA : Z * Invocation * list (option Response) -> Prop) (e : Event) : Prop :=
  match e with
  | Resolve name _ => PR name
  | Built protocol _ filters _ => PB (protocol, filters)
  | Advance index call calls => PA (index, call, calls)
  | _ => True
  end.

(** The session tokens that the selection engine was built with. *)
Definition sessions (evs : list Event) : list string :=
  omap (fun e => match e with
                 | Built _ sessionID _ _ => Some sessionID
                 | _ => None
                 end) evs.

(** What the answers of [Pick] were. *)
Definition picked (evs : list Event) : list (MicroServiceInstance + error) :=
  omap (fun e => match e with
                 | Picked r => Some r
                 | _ => None
                 end) evs.

(** What was logged. *)
Definition logged (evs : list Event) : list (option error * string) :=
  omap (fun e => match e with
                 | Logged cause text => Some (cause, text)
                 | _ => None
                 end) evs.

(** The response that the callback of [operation] holds after the advances
    of the chain in [evs], when it held [held] before them. *)
Definition held_after (evs : list Event) (held : option Response) : option Response :=
  fold_left (fun acc a => latest a.2 acc) (advances evs) held.

(** The address that the latest selection chose, after the event [e] when
    it was [chosen] before: a selection that chose none leaves none. *)
Definition follow (chosen : option string) (e : Event) : option string :=
  match e with
  | Selected (Chose ep) => Some ep
  | Selected _ => None
  | _ => chosen
  end.

(** [guided chosen evs]: every advance of the chain in [evs] has, as the
    endpoint of its call, the address that the latest selection before it
    chose, [chosen] being that address where [evs] starts. *)
Fixpoint guided (chosen : option string) (evs : list Event) : Prop :=
  match evs with
  | [] => True
  | e :: rest =>
      match e with
      | Advance _ call _ => chosen = Some (Endpoint call)
      | _ => True
      end /\ guided (follow chosen e) rest
  end.

(** ** The handler *)

Section Handler.

Context `{C : Collaborators}.

(** [err.Error()] *)
Fixpoint Error (err : error) : string :=
  match err with
  | errors_New text => text
  | LBError Message => LBError_Error Message
  | PermanentError cause => Error cause
  end.

(** *** State and effects *)

(** What a call of [Handle] can read and write: the call context [*i], the
    cursor of [*chain], the variables of [handleWithRetry] that its closures
    capture, and the collaborators' state. *)
Record State : Type := {
  i : Invocation;
  HandlerIndex : Z;
  invResp : option Response;
  callTimes : Z;
  respErr : option error;
  world : World
}.

Definition set_i (v : Invocation) (s : State) : State :=
  {| i := v; HandlerIndex := HandlerIndex s; invResp := invResp s;
     callTimes := callTimes s; respErr := respErr s; world := world s |}.

Definition set_HandlerIndex (v : Z) (s : State) : State :=
  {| i := i s; HandlerIndex := v; invResp := invResp s;
     callTimes := callTimes s; respErr := respErr s; world := world s |}.

Definition set_invResp (v : option Response) (s : State) : State :=
  {| i := i s; HandlerIndex := HandlerIndex s; invResp := v;
     callTimes := callTimes s; respErr := respErr s; world := world s |}.

Definition set_callTimes (v : Z) (s : State) : State :=
  {| i := i s; HandlerIndex := HandlerIndex s; invResp := invResp s;
     callTimes := v; respErr := respErr s; world := world s |}.

Definition set_respErr (v : option error) (s : State) : State :=
  {| i := i s; HandlerIndex := HandlerIndex s; invResp := invResp s;
     callTimes := callTimes s; respErr := v; world := world s |}.

Definition set_world (v : World) (s : State) : State :=
  {| i := i s; HandlerIndex := HandlerIndex s; invResp := invResp s;
     callTimes := callTimes s; respErr := respErr s; world := v |}.

(** The result of a run: how it ended, the state it left, and the events it
    produced, oldest first. *)
Inductive Res (A : Type) : Type :=
| Ret (a : A) (s : State) (evs : list Event)
| Abort (why : Stopped) (s : State) (evs : list Event).
Arguments Ret {A} a s evs.
Arguments Abort {A} why s evs.

Definition final {A} (r : Res A) : State :=
  match r with Ret _ s _ => s | Abort _ s _ => s end.

Definition events {A} (r : Res A) : list Event :=
  match r with Ret _ _ evs => evs | Abort _ _ evs => evs end.

Definition returned {A} (r : Res A) : Prop :=
  match r with Ret _ _ _ => True | Abort _ _ _ => False end.

Definition result {A} (r : Res A) : option A :=
  match r with Ret a _ _ => Some a | Abort _ _ _ => None end.

(** [r], after the events [before]. *)
Definition after {A} (before : list Event) (r : Res A) : Res A :=
  match r with
  | Ret a s evs => Ret a s (before ++ evs)
  | Abort why s evs => Abort why s (before ++ evs)
  end.

Definition M (A : Type) : Type := State -> Res A.

Definition ret {A} (a : A) : M A := fun s => Ret a s [].

Definition bind {A B} (m : M A) (k : A -> M B) : M B :=
  fun s => match m s with
           | Ret a s' evs => after evs (k a s')
           | Abort why s' evs => Abort why s' evs
           end.

#[export] Instance M_ret : MRet M := @ret.
#[export] Instance M_bind : MBind M := fun A B k m => bind m k.

Definition load {A} (field : State -> A) : M A := fun s => Ret (field s) s [].
Definition modify (f : State -> State) : M unit := fun s => Ret tt (f s) [].
Definition emit (e : Event) : M unit := fun s => Ret tt s [e].
Definition panic {A} (what : string) : M A := fun s => Abort (Panicked what) s [].
Definition out_of_fuel {A} : M A := fun s => Abort OutOfFuel s [].
Definition unmodelled {A} (what : string) : M A := fun s => Abort (Unmodelled what) s [].

(** A read of the configuration. *)
Definition ask {A} (f : World -> A) : M A := fun s => Ret (f (world s)) s [].

(** [lager.Logger.Errorf] *)
Definition Errorf (cause : option error) (text : string) : M unit :=
  emit (Logged cause text).

(** Modelled from the spec: [writeErr] of package handler, which reports an
    error to the caller as a response that carries it. *)
Definition writeErr (err : error) : M unit :=
  emit (Callback (Some {| Status := 0; Result := ""; Err := Some err |})).

(** [cb(r)] for the callback that [Handle] was given. *)
Definition cb (r : option Response) : M unit := emit (Callback r).

(** *** getSessionID *)

Definition getSessionID (i : Invocation) : string :=
  let metadata : option string :=
    match Args i with
    | rest_Request req =>
        let value := GetCookie req LBSessionID in
        if negb (String.eqb value "") then Some value else None
    | _ =>
        let value := GetContextMetadata (Ctx i) LBSessionID in
        if negb (String.eqb value "") then
          let cookieKey := Strings.Split value "=" in
          if (1 <? Z.of_nat (length cookieKey))
          then Some (nth 1 cookieKey "")
          else None
        else None
    end in
  match metadata with
  | None => ""
  | Some v => v
  end.

(** *** getEndpoint *)

Definition is_inl {A B} (r : A + B) : Prop :=
  match r with inl _ => True | inr _ => False end.

#[export] Instance is_inl_dec {A B} (r : A + B) : Decision (is_inl r).
Proof. destruct r; simpl; apply _. Defined.

(** [loadbalancer.GetStrategyPlugin(name)]; a failed lookup leaves the
    constructor nil and is logged. *)
Definition lookup_strategy (name : string) : M (option (unit -> StrategyT)) :=
  r ← ask (fun w => GetStrategyPlugin w name);
  match r with
  | inl strategyFun => emit (Resolve name true);; mret (Some strategyFun)
  | inr err =>
      emit (Resolve name false);;
      Errorf (Some err) (LBError_Error ("Get strategy [" ++ name ++ "] failed."));;
      mret None
  end.

(** Lines 62 to 70: an empty protocol on the call context is replaced by the
    configured transport of the target (by default the instance's default
    protocol), and if that is empty too by the first key that ranging over
    the instance's endpoints yields. *)
Definition settle_protocol (ins : MicroServiceInstance) : M unit :=
  i0 ← load i;
  (if String.eqb (Protocol i0) "" then
     p ← ask (fun w => GetString w
                 ("cse.references." ++ MicroServiceName i0 ++ ".transport")
                 (DefaultProtocol ins));
     modify (fun s => set_i (with_Protocol p (i s)) s)
   else mret tt);;
  i1 ← load i;
  if String.eqb (Protocol i1) "" then
    match EndpointsMap ins with
    | (k, _) :: _ => modify (fun s => set_i (with_Protocol k (i s)) s)
    | [] => mret tt
    end
  else mret tt.

(** Lines 71 to 79: the endpoint of the instance for the protocol of the
    call context. *)
Definition endpoint_of (ins : MicroServiceInstance) : M (string * option error) :=
  i0 ← load i;
  match assoc (Protocol i0) (EndpointsMap ins) with
  | Some ep => mret (ep, None)
  | None =>
      match Fmt.Sprintf ("No available instance support [" ++ Protocol i0
                           ++ "] protocol," ++ " msName: "
                           ++ MicroServiceName i0 ++ " %v")
                        (EndpointsMap ins) with
      | None => unmodelled "fmt.Sprintf"
      | Some errStr =>
          Errorf None (LBError_Error errStr);;
          mret ("", Some (LBError errStr))
      end
  end.

(** Lines 23 to 39: the constructor of the strategy, nil when the registry
    does not know the name; an empty name is first replaced by the
    configured one, on the call context. *)
Definition strategy_constructor : M (option (unit -> StrategyT)) :=
  i0 ← load i;
  if String.eqb (Strategy i0) "" then
    strategyName ← ask (fun w => GetStrategyName w (SourceMicroService i0) (MicroServiceName i0));
    modify (fun s => set_i (with_Strategy strategyName (i s)) s);;
    lookup_strategy strategyName
  else
    lookup_strategy (Strategy i0).

(** Lines 40 to 42. *)
Definition default_filters : M unit :=
  i0 ← load i;
  if (Z.of_nat (length (Filters i0)) =? 0) then
    fs ← ask GetServerListFilters;
    modify (fun s => set_i (with_Filters fs (i s)) s)
  else mret tt.

(** Lines 44 to 59: the instance that the strategy picks, or the error with
    which [getEndpoint] returns. *)
Definition pick_instance (strategyFun : option (unit -> StrategyT))
  : M (MicroServiceInstance + error) :=
  i0 ← load i;
  let sessionID :=
    if String.eqb (Strategy i0) StrategySessionStickiness then getSessionID i0 else "" in
  match strategyFun with
  | None => panic "invalid memory address or nil pointer dereference"
  | Some new_strategy =>
      built ← ask (fun w => BuildStrategy w (SourceServiceID i0) (MicroServiceName i0)
                              (Protocol i0) sessionID (Filters i0) (new_strategy tt)
                              (RouteTags i0));
      modify (set_world (snd built));;
      emit (Built (Protocol i0) sessionID (Filters i0) (bool_decide (is_inl (fst built))));;
      match fst built with
      | inr err => mret (inr err)
      | inl s =>
          picked ← ask (fun w => Pick w s);
          modify (set_world (snd picked));;
          emit (Picked (fst picked));;
          match fst picked with
          | inr err => mret (inr (LBError (Error err)))
          | inl ins => mret (inl ins)
          end
      end
  end.

(** Lines 23 to 79. *)
Definition getEndpoint_body : M (string * option error) :=
  strategyFun ← strategy_constructor;
  default_filters;;
  picked ← pick_instance strategyFun;
  match picked with
  | inr err => mret ("", Some err)
  | inl ins => settle_protocol ins;; endpoint_of ins
  end.

(** The name that a selection from state [s] looks up, the filters that it
    uses, and the protocol that it settles on with instance [ins]. *)
Definition name_of (s : State) : string :=
  if String.eqb (Strategy (i s)) ""
  then GetStrategyName (world s) (SourceMicroService (i s)) (MicroServiceName (i s))
  else Strategy (i s).

Definition filters_of (s : State) : list string :=
  if (Z.of_nat (length (Filters (i s))) =? 0)
  then GetServerListFilters (world s)
  else Filters (i s).

Definition protocol_of (ins : MicroServiceInstance) (s : State) : string :=
  let preferred :=
    if String.eqb (Protocol (i s)) ""
    then GetString (world s)
           ("cse.references." ++ MicroServiceName (i s) ++ ".transport")
           (DefaultProtocol ins)
    else Protocol (i s) in
  if String.eqb preferred ""
  then match EndpointsMap ins with
       | (k, _) :: _ => k
       | [] => preferred
       end
  else preferred.

(** The session token that a selection from state [s] builds the strategy
    with. *)
Definition token_of (s : State) : string :=
  if String.eqb (name_of s) StrategySessionStickiness then getSessionID (i s) else "".

(** What [BuildStrategy] answers to a selection from state [s] that got
    the constructor [new_strategy]. *)
Definition built_for (new_strategy : unit -> StrategyT) (s : State)
  : (StrategyT + error) * World :=
  BuildStrategy (world s) (SourceServiceID (i s)) (MicroServiceName (i s)) (Protocol (i s))
    (token_of s) (filters_of s) (new_strategy tt) (RouteTags (i s)).

(** [getEndpoint], followed by the event that says how it ended. *)
Definition getEndpoint : M (string * option error) :=
  fun s =>
    match getEndpoint_body s with
    | Ret (ep, None) s' evs => Ret (ep, None) s' (evs ++ [Selected (Chose ep)])
    | Ret (ep, Some err) s' evs => Ret (ep, Some err) s' (evs ++ [Selected (Refused err)])
    | Abort why s' evs => Abort why s' (evs ++ [Selected (Crashed why)])
    end.

(** *** The runs of a selection, case by case *)

(** The state in which the selection engine is called: the strategy name
    and the filters are on the call context. *)
Definition prepared (s : State) : State :=
  set_i (with_Filters (filters_of s) (with_Strategy (name_of s) (i s))) s.

(** The events of the lookup in the strategy registry. *)
Definition lookup_events (s : State) : list Event :=
  Resolve (name_of s) (bool_decide (is_inl (GetStrategyPlugin (world s) (name_of s)))) ::
  match GetStrategyPlugin (world s) (name_of s) with
  | inl _ => []
  | inr err =>
      [Logged (Some err) (LBError_Error ("Get strategy [" ++ name_of s ++ "] failed."))]
  end.

(** The state in which the endpoint is looked up: the protocol is on the
    call context. *)
Definition settled (ins : MicroServiceInstance) (s : State) : State :=
  set_i (with_Protocol (protocol_of ins s) (i s)) s.

(** The text of the error for a protocol that the instance does not have. *)
Definition mismatch (ins : MicroServiceInstance) (s : State) : option string :=
  Fmt.Sprintf ("No available instance support [" ++ protocol_of ins s
                 ++ "] protocol," ++ " msName: "
                 ++ MicroServiceName (i s) ++ " %v")
              (EndpointsMap ins).

Definition nil_dereference : Stopped :=
  Panicked "invalid memory address or nil pointer dereference".

(** How a selection that ran as [r] ended. *)
Definition ending (r : Res (string * option error)) : Selection :=
  match r with
  | Ret (ep, None) _ _ => Chose ep
  | Ret (_, Some err) _ _ => Refused err
  | Abort why _ _ => Crashed why
  end.

(** [selects s r]: from state [s], [getEndpoint] ends as [r]. *)
Inductive selects (s : State) : Res (string * option error) -> Prop :=
| selects_nil err :
    GetStrategyPlugin (world s) (name_of s) = inr err ->
    selects s (Abort nil_dereference (prepared s)
                 (lookup_events s ++ [Selected (Crashed nil_dereference)]))
| selects_refused new_strategy err s3 evs3 :
    GetStrategyPlugin (world s) (name_of s) = inl new_strategy ->
    pick_instance (Some new_strategy) (prepared s) = Ret (inr err) s3 evs3 ->
    selects s (Ret ("", Some err) s3
                 (lookup_events s ++ evs3 ++ [Selected (Refused err)]))
| selects_chose new_strategy ins s3 evs3 ep :
    GetStrategyPlugin (world s) (name_of s) = inl new_strategy ->
    pick_instance (Some new_strategy) (prepared s) = Ret (inl ins) s3 evs3 ->
    assoc (protocol_of ins s3) (EndpointsMap ins) = Some ep ->
    selects s (Ret (ep, None) (settled ins s3)
                 (lookup_events s ++ evs3 ++ [Selected (Chose ep)]))
| selects_mismatch new_strategy ins s3 evs3 errStr :
    GetStrategyPlugin (world s) (name_of s) = inl new_strategy ->
    pick_instance (Some new_strategy) (prepared s) = Ret (inl ins) s3 evs3 ->
    assoc (protocol_of ins s3) (EndpointsMap ins) = None ->
    mismatch ins s3 = Some errStr ->
    selects s (Ret ("", Some (LBError errStr)) (settled ins s3)
                 (lookup_events s ++ evs3 ++
                  [Logged None (LBError_Error errStr); Selected (Refused (LBError errStr))]))
| selects_unmodelled new_strategy ins s3 evs3 :
    GetStrategyPlugin (world s) (name_of s) = inl new_strategy ->
    pick_instance (Some new_strategy) (prepared s) = Ret (inl ins) s3 evs3 ->
    assoc (protocol_of ins s3) (EndpointsMap ins) = None ->
    mismatch ins s3 = None ->
    selects s (Abort (Unmodelled "fmt.Sprintf") (settled ins s3)
                 (lookup_events s ++ evs3 ++
                  [Selected (Crashed (Unmodelled "fmt.Sprintf"))])).

(** *** The chain *)

(** [chain.Next(i, f)]: the rest of the chain runs on the current cursor and
    call context and hands its responses to [f]. *)
Definition chain_Next (f : option Response -> M unit) : M unit :=
  index ← load HandlerIndex;
  call ← load i;
  step ← ask (fun w => Next w index call);
  emit (Advance index call (reported step));;
  modify (set_HandlerIndex (index_after step));;
  modify (set_i (call_after step));;
  modify (set_world (world_after step));;
  foldr (fun r rest => f r;; rest) (mret tt) (reported step).

(** *** Handle without retry *)

Definition handleWithNoRetry : M unit :=
  r ← getEndpoint;
  match snd r with
  | Some err => writeErr err
  | None =>
      modify (fun s => set_i (with_Endpoint (fst r) (i s)) s);;
      chain_Next cb
  end.

(** *** Handle with retry *)

(** [backoff.Retry(operation, b)]: call [operation] until it returns nil or a
    permanent error, or until the policy says [Stop]; [k] is the number of
    answers the policy has given since it was reset.  The loop of the library
    has no bound; [fuel] bounds the number of its iterations here. *)
Fixpoint Retry_from (fuel : nat) (operation : M (option error)) (b : BackOff) (k : nat)
  : M (option error) :=
  match fuel with
  | O => out_of_fuel
  | S fuel' =>
      err ← operation;
      match err with
      | None => mret None
      | Some (PermanentError cause) => mret (Some cause)
      | Some e =>
          let next := b k in
          emit (BackedOff next);;
          if next =? Stop then mret (Some e)
          else Retry_from fuel' operation b (S k)
      end
  end.

Definition backoff_Retry (fuel : nat) (operation : M (option error)) (b : BackOff)
  : M (option error) :=
  Retry_from fuel operation b 0.

(** The callback that [operation] hands to the chain. *)
Definition keep (r : option Response) : M unit :=
  match r with
  | Some resp =>
      modify (set_invResp (Some resp));;
      modify (set_respErr (Err resp))
  | None => mret tt
  end.

(** The closure [operation] of [handleWithRetry]. *)
Definition operation (retryOnSame : Z) (ep : string) (handlerIndex : Z) : M (option error) :=
  n ← load callTimes;
  if n =? Int.add retryOnSame 1 then
    mret (Some (backoff_Permanent (errors_New "retry times expires")))
  else
    modify (set_callTimes (Int.add n 1));;
    modify (fun s => set_i (with_Endpoint ep (i s)) s);;
    modify (set_respErr None);;
    modify (set_HandlerIndex handlerIndex);;
    chain_Next keep;;
    load respErr.

(** The state that one call of [operation] leaves behind when it advances
    the chain. *)
Definition attempted (ep : string) (handlerIndex : Z) (s : State) : State :=
  let call := with_Endpoint ep (i s) in
  let step := Next (world s) handlerIndex call in
  {| i := call_after step;
     HandlerIndex := index_after step;
     invResp := latest (reported step) (invResp s);
     callTimes := Int.add (callTimes s) 1;
     respErr := verdict (reported step);
     world := world_after step |}.

(** The responses that the chain hands over in that call. *)
Definition answers (ep : string) (handlerIndex : Z) (s : State) : list (option Response) :=
  reported (Next (world s) handlerIndex (with_Endpoint ep (i s))).

(** How the loop over the rounds was left. *)
Inductive Flow : Type :=
| Returned      (* by the [return] after writeErr *)
| Fell.         (* by [break], or because the condition became false *)

(** The loop [for j := 0; j < retryOnNext+1; j++] with [rounds] iterations
    still to go. *)
Fixpoint retry_rounds (fuel : nat) (rounds : nat) (retryOnSame handlerIndex : Z) : M Flow :=
  match rounds with
  | O => mret Fell
  | S rounds' =>
      r ← getEndpoint;
      match snd r with
      | Some err => writeErr err;; mret Returned
      | None =>
          i0 ← load i;
          lbBackoff ← ask (fun w => GetBackOff w (SourceMicroService i0) (MicroServiceName i0));
          modify (set_callTimes 0);;
          err ← backoff_Retry fuel (operation retryOnSame (fst r) handlerIndex) lbBackoff;
          match err with
          | None => mret Fell
          | Some _ => retry_rounds fuel rounds' retryOnSame handlerIndex
          end
      end
  end.

Definition handleWithRetry (fuel : nat) : M unit :=
  i0 ← load i;
  retryOnSame ← ask (fun w => GetRetryOnSame w (SourceMicroService i0) (MicroServiceName i0));
  retryOnNext ← ask (fun w => GetRetryOnNext w (SourceMicroService i0) (MicroServiceName i0));
  handlerIndex ← load HandlerIndex;
  modify (set_invResp None);;
  flow ← retry_rounds fuel (Z.to_nat (Int.add retryOnNext 1)) retryOnSame handlerIndex;
  match flow with
  | Returned => mret tt
  | Fell =>
      r ← load invResp;
      (if r is None then modify (set_invResp (Some Response_zero)) else mret tt);;
      r' ← load invResp;
      cb r'
  end.

(** The response that [handleWithRetry] delivers when it leaves the loop in
    state [s]. *)
Definition delivered (s : State) : Response :=
  match invResp s with
  | Some resp => resp
  | None => Response_zero
  end.

(** *** The runs of the retry loop, case by case *)

(** [attempts m ep h b fuel k s r]: from state [s], with [k] answers of the
    back-off policy used up, [backoff.Retry] around [operation] ends as [r]. *)
Inductive attempts (retryOnSame : Z) (ep : string) (handlerIndex : Z) (b : BackOff)
  : nat -> nat -> State -> Res (option error) -> Prop :=
| attempts_out_of_fuel k s :
    attempts retryOnSame ep handlerIndex b 0 k s (Abort OutOfFuel s [])
| attempts_expired fuel k s :
    callTimes s = Int.add retryOnSame 1 ->
    attempts retryOnSame ep handlerIndex b (S fuel) k s
      (Ret (Some (errors_New "retry times expires")) s [])
| attempts_succeeded fuel k s :
    callTimes s <> Int.add retryOnSame 1 ->
    verdict (answers ep handlerIndex s) = None ->
    attempts retryOnSame ep handlerIndex b (S fuel) k s
      (Ret None (attempted ep handlerIndex s)
         [Advance handlerIndex (with_Endpoint ep (i s)) (answers ep handlerIndex s)])
| attempts_permanent fuel k s cause :
    callTimes s <> Int.add retryOnSame 1 ->
    verdict (answers ep handlerIndex s) = Some (PermanentError cause) ->
    attempts retryOnSame ep handlerIndex b (S fuel) k s
      (Ret (Some cause) (attempted ep handlerIndex s)
         [Advance handlerIndex (with_Endpoint ep (i s)) (answers ep handlerIndex s)])
| attempts_stopped fuel k s err :
    callTimes s <> Int.add retryOnSame 1 ->
    verdict (answers ep handlerIndex s) = Some err ->
    ~ permanent err ->
    b k = Stop ->
    attempts retryOnSame ep handlerIndex b (S fuel) k s
      (Ret (Some err) (attempted ep handlerIndex s)
         [Advance handlerIndex (with_Endpoint ep (i s)) (answers ep handlerIndex s);
          BackedOff (b k)])
| attempts_again fuel k s err r :
    callTimes s <> Int.add retryOnSame 1 ->
    verdict (answers ep handlerIndex s) = Some err ->
    ~ permanent err ->
    b k <> Stop ->
    attempts retryOnSame ep handlerIndex b fuel (S k) (attempted ep handlerIndex s) r ->
    attempts retryOnSame ep handlerIndex b (S fuel) k s
      (after [Advance handlerIndex (with_Endpoint ep (i s)) (answers ep handlerIndex s);
              BackedOff (b k)] r).

(** The back-off policy of a round that starts in state [s]. *)
Definition round_policy (s : State) : BackOff :=
  GetBackOff (world s) (SourceMicroService (i s)) (MicroServiceName (i s)).

(** [rounds fuel m h n s r]: from state [s], with [n] rounds to go, the loop
    of [handleWithRetry] ends as [r]. *)
Inductive rounds (fuel : nat) (retryOnSame handlerIndex : Z)
  : nat -> State -> Res Flow -> Prop :=
| rounds_none s :
    rounds fuel retryOnSame handlerIndex 0 s (Ret Fell s [])
| rounds_crashed n s why s1 evs :
    getEndpoint s = Abort why s1 evs ->
    rounds fuel retryOnSame handlerIndex (S n) s (Abort why s1 evs)
| rounds_refused n s ep err s1 evs :
    getEndpoint s = Ret (ep, Some err) s1 evs ->
    rounds fuel retryOnSame handlerIndex (S n) s
      (Ret Returned s1
         (evs ++ [Callback (Some {| Status := 0; Result := ""; Err := Some err |})]))
| rounds_aborted n s ep s1 evs why s2 evs2 :
    getEndpoint s = Ret (ep, None) s1 evs ->
    attempts retryOnSame ep handlerIndex (round_policy s1) fuel 0 (set_callTimes 0 s1)
      (Abort why s2 evs2) ->
    rounds fuel retryOnSame handlerIndex (S n) s (Abort why s2 (evs ++ evs2))
| rounds_succeeded n s ep s1 evs s2 evs2 :
    getEndpoint s = Ret (ep, None) s1 evs ->
    attempts retryOnSame ep handlerIndex (round_policy s1) fuel 0 (set_callTimes 0 s1)
      (Ret None s2 evs2) ->
    rounds fuel retryOnSame handlerIndex (S n) s (Ret Fell s2 (evs ++ evs2))
| rounds_next n s ep s1 evs err s2 evs2 r :
    getEndpoint s = Ret (ep, None) s1 evs ->
    attempts retryOnSame ep handlerIndex (round_policy s1) fuel 0 (set_callTimes 0 s1)
      (Ret (Some err) s2 evs2) ->
    rounds fuel retryOnSame handlerIndex n s2 r ->
    rounds fuel retryOnSame handlerIndex (S n) s (after (evs ++ evs2) r).

(** *** Handle *)

Definition Handle (fuel : nat) : M unit :=
  i0 ← load i;
  enabled ← ask (fun w => RetryEnabled w (SourceMicroService i0) (MicroServiceName i0));
  if negb enabled then handleWithNoRetry else handleWithRetry fuel.

(** [Name] *)
Definition Name : string := "loadbalancer".

Definition genKey (s : list string) : string := Strings.Join s ".".

Definition genMsKey (prefix src dest property : string) : string :=
  if String.eqb src "" then genKey [prefix; dest; property]
  else genKey [prefix; src; dest; property].

End Handler.

Arguments Ret {C A} a s evs.
Arguments Abort {C A} why s evs.

(** ** A concrete deployment *)

(** Collaborators that can be run: a registry given by the list of its
    names, a selection engine that answers the [k]-th pick with the [k]-th
    entry of a list, and a chain whose [k]-th advance hands the [k]-th entry
    of a script to the callback and moves the cursor one step. *)
Module Scenario.

Record Setup : Type := {
  retry : bool;
  onSame : Z;
  onNext : Z;
  policy : BackOff;
  default_strategy : string;
  default_filters : list string;
  transport : string;
  registered : list string;
  picks : list (MicroServiceInstance + error);
  script : list (list (option Response))
}.

Definition ok : Response := {| Status := 200; Result := "ok"; Err := None |}.

Definition failed (text : string) : Response :=
  {| Status := 500; Result := ""; Err := Some (errors_New text) |}.

Definition collaborators (su : Setup) : Collaborators := {|
  World := nat * nat;
  StrategyT := unit;
  GetStrategyName := fun _ _ _ => default_strategy su;
  GetServerListFilters := fun _ => default_filters su;
  RetryEnabled := fun _ _ _ => retry su;
  GetRetryOnSame := fun _ _ _ => onSame su;
  GetRetryOnNext := fun _ _ _ => onNext su;
  GetBackOff := fun _ _ _ => policy su;
  GetString := fun _ _ fallback =>
    if String.eqb (transport su) "" then fallback else transport su;
  GetStrategyPlugin := fun _ name =>
    if existsb (String.eqb name) (registered su) then inl (fun _ => tt)
    else inr (errors_New ("don't support strategyName [" ++ name ++ "]"));
  BuildStrategy := fun w _ _ _ _ _ s _ => (inl s, w);
  Pick := fun w _ =>
    (nth (fst w) (picks su) (inr (errors_New "no available instance")),
     (S (fst w), snd w));
  LBError_Error := fun Message => "lb: " ++ Message;
  StrategySessionStickiness := "SessionStickiness";
  LBSessionID := "lb-session-id";
  Next := fun w index call =>
    {| reported := nth (snd w) (script su) [Some ok];
       index_after := index + 1;
       call_after := call;
       world_after := (fst w, S (snd w)) |}
|}.

Definition call (strategy protocol : string) (args : Arguments) (ctx : gmap string string)
  : Invocation :=
  {| Endpoint := ""; Protocol := protocol; SourceServiceID := "id-1";
     SourceMicroService := "client"; MicroServiceName := "server";
     Strategy := strategy; Filters := []; RouteTags := ∅; Args := args; Ctx := ctx |}.

Definition start (su : Setup) (c : Invocation) : @State (collaborators su) :=
  @Build_State (collaborators su) c 3 None 0 None (0%nat, 0%nat).

(** The collaborators of a setup, with a selection engine that cannot be
    built. *)
Definition broken (su : Setup) : Collaborators := {|
  World := @World (collaborators su);
  StrategyT := @StrategyT (collaborators su);
  GetStrategyName := @GetStrategyName (collaborators su);
  GetServerListFilters := @GetServerListFilters (collaborators su);
  RetryEnabled := @RetryEnabled (collaborators su);
  GetRetryOnSame := @GetRetryOnSame (collaborators su);
  GetRetryOnNext := @GetRetryOnNext (collaborators su);
  GetBackOff := @GetBackOff (collaborators su);
  GetString := @GetString (collaborators su);
  GetStrategyPlugin := @GetStrategyPlugin (collaborators su);
  BuildStrategy := fun w _ _ _ _ _ _ _ => (inr (errors_New "no provider"), w);
  Pick := @Pick (collaborators su);
  LBError_Error := @LBError_Error (collaborators su);
  StrategySessionStickiness := @StrategySessionStickiness (collaborators su);
  LBSessionID := @LBSessionID (collaborators su);
  Next := @Next (collaborators su)
|}.

Definition start_broken (su : Setup) (c : Invocation) : @State (broken su) :=
  @Build_State (broken su) c 3 None 0 None (0%nat, 0%nat).

Definition constant (d : Z) : BackOff := fun _ => d.

Definition both : MicroServiceInstance :=
  {| InstanceID := "ins-1"; DefaultProtocol := "";
     EndpointsMap := [("http", "a:1"); ("grpc", "b:2")] |}.


(** Retry once on the same instance and once on the next one; every
    advance of the chain fails. *)
Definition failing : Setup :=
  {| retry := true; onSame := 1; onNext := 1; policy := constant 10;
     default_strategy := "RoundRobin"; default_filters := ["zone"]; transport := "";
     registered := ["RoundRobin"]; picks := [inl both; inl both; inl both];
     script := [[Some (failed "e1")]; [Some (failed "e2")]; [Some (failed "e3")];
                [Some (failed "e4")]; [Some (failed "e5")]] |}.

(** The second advance of the chain succeeds. *)
Definition recovering : Setup :=
  {| retry := true; onSame := 1; onNext := 1; policy := constant 10;
     default_strategy := "RoundRobin"; default_filters := ["zone"]; transport := "";
     registered := ["RoundRobin"]; picks := [inl both; inl both];
     script := [[Some (failed "e1")]; [Some ok]] |}.

(** The selection engine has one instance to give and then none. *)
Definition drained : Setup :=
  {| retry := true; onSame := 1; onNext := 1; policy := constant 10;
     default_strategy := "RoundRobin"; default_filters := ["zone"]; transport := "";
     registered := ["RoundRobin"]; picks := [inl both];
     script := [[Some (failed "e1")]; [Some (failed "e2")]] |}.


(** The registry has no strategy. *)
Definition unregistered : Setup :=
  {| retry := false; onSame := 0; onNext := 0; policy := constant 10;
     default_strategy := "RoundRobin"; default_filters := ["zone"]; transport := "";
     registered := []; picks := [inl both];
     script := [[Some ok]] |}.

(** The configuration allows no round: [retryOnNext] is [-1]. *)
Definition no_rounds : Setup :=
  {| retry := true; onSame := 1; onNext := -1; policy := constant 10;
     default_strategy := "RoundRobin"; default_filters := ["zone"]; transport := "";
     registered := ["RoundRobin"]; picks := [inl both];
     script := [[Some ok]] |}.

(** The configuration allows no attempt: [retryOnSame] is [-1]. *)
Definition no_attempts : Setup :=
  {| retry := true; onSame := -1; onNext := 1; policy := constant 10;
     default_strategy := "RoundRobin"; default_filters := ["zone"]; transport := "";
     registered := ["RoundRobin"]; picks := [inl both; inl both];
     script := [[Some ok]] |}.

(** The strategy is [SessionStickiness]. *)
Definition sticky : Setup :=
  {| retry := false; onSame := 0; onNext := 0; policy := constant 10;
     default_strategy := "SessionStickiness"; default_filters := ["zone"]; transport := "";
     registered := ["SessionStickiness"; "RoundRobin"]; picks := [inl both];
     script := [[Some ok]] |}.

(** The selection engine has no instance to give. *)
Definition empty_pool : Setup :=
  {| retry := false; onSame := 0; onNext := 0; policy := constant 10;
     default_strategy := "RoundRobin"; default_filters := ["zone"]; transport := "";
     registered := ["RoundRobin"]; picks := [];
     script := [[Some ok]] |}.

(** The first advance of the chain fails, the second one hands over nil. *)
Definition muted : Setup :=
  {| retry := true; onSame := 1; onNext := 1; policy := constant 10;
     default_strategy := "RoundRobin"; default_filters := ["zone"]; transport := "";
     registered := ["RoundRobin"]; picks := [inl both; inl both];
     script := [[Some (failed "e1")]; [None]] |}.

(** A call of the service [server] by the service [client], with no
    strategy, no protocol and no filters on its context. *)
Definition bare : Invocation := call "" "" (other_args "") ∅.

(** A call whose generic metadata carry [value] under the key of the
    session token. *)
Definition with_metadata (value : string) : Invocation :=
  call "" "" (other_args "") {[ "lb-session-id" := value ]}.

(** A call whose arguments are a request that carries the cookies [cookies]. *)
Definition with_cookies (cookies : list (string * string)) : Invocation :=
  call "" "" (rest_Request {| Cookies := cookies |}) ∅.

(** The events of [handleWithRetry] in a setup, for a bare call. *)
Definition trace (su : Setup) (fuel : nat) : list Event :=
  events (@handleWithRetry (collaborators su) fuel (start su bare)).

(** The [k]-th advance of the chain in a list of events. *)
Definition advance_at (k : nat) (evs : list Event) : Z * Invocation * list (option Response) :=
  nth k (advances evs) (0, bare, []).

End Scenario.

(** * Properties *)

Local Open Scope list_scope.

(** ** Machine integers *)

Lemma Int_wrap_small z : Int.min <= z <= Int.max -> Int.wrap z = z.
Proof.
  unfold Int.wrap, Int.min, Int.max. intros Hz.
  rewrite Z.mod_small by lia. lia.
Qed.

Lemma Int_add_small a b : Int.min <= a + b <= Int.max -> Int.add a b = a + b.
Proof. apply Int_wrap_small. Qed.

(** ** Running the monad *)

Section Running.

Context `{C : Collaborators}.

Lemma after_nil {A} (r : Res A) : after [] r = r.
Proof. destruct r; reflexivity. Qed.

Lemma after_after {A} e1 e2 (r : Res A) : after e1 (after e2 r) = after (e1 ++ e2) r.
Proof. destruct r; cbn; rewrite app_assoc; reflexivity. Qed.

Lemma events_after {A} e (r : Res A) : events (after e r) = e ++ events r.
Proof. destruct r; reflexivity. Qed.

Lemma final_after {A} e (r : Res A) : final (after e r) = final r.
Proof. destruct r; reflexivity. Qed.

Lemma result_after {A} e (r : Res A) : result (after e r) = result r.
Proof. destruct r; reflexivity. Qed.

Lemma returned_after {A} e (r : Res A) : returned (after e r) <-> returned r.
Proof. destruct r; reflexivity. Qed.

Lemma run_bind {A B} (m : M A) (k : A -> M B) s :
  (m ≫= k) s = match m s with
               | Ret a s' evs => after evs (k a s')
               | Abort why s' evs => Abort why s' evs
               end.
Proof. reflexivity. Qed.

Lemma run_ret {A B} (a : A) (k : A -> M B) s : (mret a ≫= k) s = k a s.
Proof. rewrite run_bind. cbn. apply after_nil. Qed.

Lemma run_load {A B} (f : State -> A) (k : A -> M B) s : (load f ≫= k) s = k (f s) s.
Proof. rewrite run_bind. cbn. apply after_nil. Qed.

Lemma run_ask {A B} (f : World -> A) (k : A -> M B) s : (ask f ≫= k) s = k (f (world s)) s.
Proof. rewrite run_bind. cbn. apply after_nil. Qed.

Lemma run_modify {B} (f : State -> State) (k : unit -> M B) s :
  (modify f ≫= k) s = k tt (f s).
Proof. rewrite run_bind. cbn. apply after_nil. Qed.

Lemma run_emit {B} (e : Event) (k : unit -> M B) s : (emit e ≫= k) s = after [e] (k tt s).
Proof. reflexivity. Qed.

Lemma run_assoc {A B D} (m : M A) (f : A -> M B) (g : B -> M D) s :
  ((m ≫= f) ≫= g) s = (m ≫= (fun a => f a ≫= g)) s.
Proof.
  rewrite !run_bind. destruct (m s) as [a s' evs|]; [|reflexivity].
  rewrite run_bind. destruct (f a s'); cbn; [|reflexivity].
  rewrite after_after. reflexivity.
Qed.

End Running.

Create Rewrite HintDb run.
#[export] Hint Rewrite @run_ret @run_load @run_ask @run_modify @run_emit @run_assoc
  @after_nil @after_after : run.

(** Run the straight-line part of a program. *)
Ltac run := repeat (progress (autorewrite with run; cbv beta)).

(** ** Reading traces *)

Lemma advances_app a b : advances (a ++ b) = advances a ++ advances b.
Proof. apply omap_app. Qed.

Lemma callbacks_app a b : callbacks (a ++ b) = callbacks a ++ callbacks b.
Proof. apply omap_app. Qed.

Lemma selections_app a b : selections (a ++ b) = selections a ++ selections b.
Proof. apply omap_app. Qed.

Lemma resolutions_app a b : resolutions (a ++ b) = resolutions a ++ resolutions b.
Proof. apply omap_app. Qed.

Lemma builds_app a b : builds (a ++ b) = builds a ++ builds b.
Proof. apply omap_app. Qed.

Lemma latest_held calls held :
  latest calls held = match latest calls None with Some resp => Some resp | None => held end.
Proof.
  unfold latest. revert held.
  induction calls as [|r calls IH]; intros held; [reflexivity|].
  cbn. destruct r as [resp|]; [|apply IH].
  rewrite (IH (Some resp)). destruct (fold_left _ calls None); reflexivity.
Qed.

Lemma verdict_latest calls :
  verdict calls = match latest calls None with Some resp => Err resp | None => None end.
Proof.
  unfold verdict, verdict_from, latest.
  enough (H : forall e held,
    e = match held with Some resp => Err resp | None => None end ->
    fold_left (fun acc r => match r with Some resp => Err resp | None => acc end) calls e =
    match fold_left (fun acc r => match r with Some resp => Some resp | None => acc end)
            calls held with
    | Some resp => Err resp | None => None end) by (apply (H None None); reflexivity).
  induction calls as [|r calls IH]; intros e held He; cbn; [exact He|].
  destruct r as [resp|]; apply IH; [reflexivity|exact He].
Qed.

(** ** One attempt, and the attempts of one round *)

Section Attempts.

Context `{C : Collaborators}.

Lemma keep_all calls s :
  foldr (fun r rest => keep r;; rest) (mret tt) calls s =
  Ret tt (set_respErr (verdict_from calls (respErr s))
            (set_invResp (latest calls (invResp s)) s)) [].
Proof.
  revert s. induction calls as [|r calls IH]; intros s.
  - destruct s; reflexivity.
  - cbn [foldr]. destruct r as [resp|]; unfold keep; run; rewrite IH; reflexivity.
Qed.

Lemma operation_expired retryOnSame ep handlerIndex s :
  callTimes s = Int.add retryOnSame 1 ->
  operation retryOnSame ep handlerIndex s =
  Ret (Some (PermanentError (errors_New "retry times expires"))) s [].
Proof.
  intros Hc. unfold operation. run. rewrite Hc, Z.eqb_refl. reflexivity.
Qed.

Lemma operation_attempt retryOnSame ep handlerIndex s :
  callTimes s <> Int.add retryOnSame 1 ->
  operation retryOnSame ep handlerIndex s =
  Ret (verdict (answers ep handlerIndex s)) (attempted ep handlerIndex s)
      [Advance handlerIndex (with_Endpoint ep (i s)) (answers ep handlerIndex s)].
Proof.
  intros Hc. unfold operation. run.
  destruct (Z.eqb_spec (callTimes s) (Int.add retryOnSame 1)) as [|_]; [done|].
  run. unfold chain_Next. run. cbn.
  rewrite run_bind, keep_all. cbn. reflexivity.
Qed.

End Attempts.

Section Loops.

Context `{C : Collaborators}.

Lemma Retry_from_step fuel op b k s :
  Retry_from (S fuel) op b k s =
  match op s with
  | Ret None s' evs => Ret None s' evs
  | Ret (Some (PermanentError cause)) s' evs => Ret (Some cause) s' evs
  | Ret (Some err) s' evs =>
      if b k =? Stop then Ret (Some err) s' (evs ++ [BackedOff (b k)])
      else after (evs ++ [BackedOff (b k)]) (Retry_from fuel op b (S k) s')
  | Abort why s' evs => Abort why s' evs
  end.
Proof.
  cbn [Retry_from]. rewrite run_bind.
  destruct (op s) as [[err|] s' evs|]; [| |reflexivity].
  - destruct err.
    3: { cbn; rewrite app_nil_r; reflexivity. }
    all: rewrite run_emit; destruct (b k =? Stop); cbn.
    all: first [reflexivity | apply after_after].
  - cbn. rewrite app_nil_r. reflexivity.
Qed.

(** [backoff.Retry] around [operation] runs as [attempts] says. *)
Lemma Retry_from_attempts retryOnSame ep handlerIndex b fuel k s :
  attempts retryOnSame ep handlerIndex b fuel k s
    (Retry_from fuel (operation retryOnSame ep handlerIndex) b k s).
Proof.
  revert k s. induction fuel as [|fuel IH]; intros k s.
  - apply attempts_out_of_fuel.
  - rewrite Retry_from_step.
    destruct (Z.eq_dec (callTimes s) (Int.add retryOnSame 1)) as [Hc|Hc].
    + rewrite operation_expired by exact Hc. apply attempts_expired, Hc.
    + rewrite operation_attempt by exact Hc.
      destruct (verdict (answers ep handlerIndex s)) as [err|] eqn:Hv.
      * destruct (Z.eqb_spec (b k) Stop) as [Hb|Hb].
        -- destruct err; cbn [app].
           ++ apply attempts_stopped; cbn; auto.
           ++ apply attempts_stopped; cbn; auto.
           ++ apply attempts_permanent; auto.
        -- destruct err; cbn [app].
           ++ eapply attempts_again; eauto; cbn; auto.
           ++ eapply attempts_again; eauto; cbn; auto.
           ++ apply attempts_permanent; auto.
      * now apply attempts_succeeded.
Qed.

Lemma retry_rounds_rounds fuel retryOnSame handlerIndex n s :
  rounds fuel retryOnSame handlerIndex n s
    (retry_rounds fuel n retryOnSame handlerIndex s).
Proof.
  revert s. induction n as [|n IH]; intros s.
  - apply rounds_none.
  - cbn [retry_rounds]. rewrite run_bind.
    destruct (getEndpoint s) as [[ep [err|]] s1 evs|why s1 evs] eqn:Hsel.
    + cbn [snd]. unfold writeErr. run. cbn. rewrite app_nil_r.
      eapply rounds_refused, Hsel.
    + cbn [snd fst]. run.
      pose proof (Retry_from_attempts retryOnSame ep handlerIndex (round_policy s1)
                    fuel 0 (set_callTimes 0 s1)) as Hat.
      unfold backoff_Retry. rewrite run_bind.
      change (GetBackOff (world s1) (SourceMicroService (i s1)) (MicroServiceName (i s1)))
        with (round_policy s1).
      destruct (Retry_from fuel _ _ 0 _) as [[err|] s2 evs2|why s2 evs2] eqn:Hre.
      * rewrite after_after. eapply rounds_next; eauto.
      * change (rounds fuel retryOnSame handlerIndex (S n) s
                  (after evs (after evs2 (Ret Fell s2 [])))).
        cbn. rewrite app_nil_r.
        eapply rounds_succeeded; eauto.
      * cbn. eapply rounds_aborted; eauto.
    + eapply rounds_crashed, Hsel.
Qed.

End Loops.

(** ** One selection *)

Section Selecting.

Context `{C : Collaborators}.

Lemma with_Strategy_same c : with_Strategy (Strategy c) c = c.
Proof. destruct c; reflexivity. Qed.

Lemma with_Filters_same c : with_Filters (Filters c) c = c.
Proof. destruct c; reflexivity. Qed.

Lemma with_Protocol_same c : with_Protocol (Protocol c) c = c.
Proof. destruct c; reflexivity. Qed.

Lemma set_i_same (s : State) : set_i (i s) s = s.
Proof. destruct s; reflexivity. Qed.

Lemma lookup_strategy_run name s :
  lookup_strategy name s =
  Ret (match GetStrategyPlugin (world s) name with inl f => Some f | inr _ => None end) s
      (Resolve name (bool_decide (is_inl (GetStrategyPlugin (world s) name))) ::
       match GetStrategyPlugin (world s) name with
       | inl _ => []
       | inr err => [Logged (Some err) (LBError_Error ("Get strategy [" ++ name ++ "] failed."))]
       end).
Proof.
  unfold lookup_strategy, Errorf. run.
  destruct (GetStrategyPlugin (world s) name); run; reflexivity.
Qed.

Lemma strategy_constructor_run s :
  strategy_constructor s =
  Ret (match GetStrategyPlugin (world s) (name_of s) with inl f => Some f | inr _ => None end)
      (set_i (with_Strategy (name_of s) (i s)) s)
      (Resolve (name_of s) (bool_decide (is_inl (GetStrategyPlugin (world s) (name_of s)))) ::
       match GetStrategyPlugin (world s) (name_of s) with
       | inl _ => []
       | inr err =>
           [Logged (Some err) (LBError_Error ("Get strategy [" ++ name_of s ++ "] failed."))]
       end).
Proof.
  unfold strategy_constructor, name_of. run.
  destruct (String.eqb (Strategy (i s)) ""); run.
  - rewrite lookup_strategy_run. reflexivity.
  - rewrite lookup_strategy_run, with_Strategy_same, set_i_same. reflexivity.
Qed.

Lemma default_filters_run s :
  default_filters s = Ret tt (set_i (with_Filters (filters_of s) (i s)) s) [].
Proof.
  unfold default_filters, filters_of. run.
  destruct (Z.of_nat (length (Filters (i s))) =? 0); run.
  - reflexivity.
  - rewrite with_Filters_same, set_i_same. reflexivity.
Qed.

Lemma pick_instance_nil s :
  pick_instance None s =
  Abort (Panicked "invalid memory address or nil pointer dereference") s [].
Proof. reflexivity. Qed.

(** What the engine is asked and what it answers, once the strategy has a
    constructor. *)
Lemma pick_instance_some new_strategy s :
  let r := pick_instance (Some new_strategy) s in
  returned r /\
  final r = set_world (world (final r)) s /\
  advances (events r) = [] /\ callbacks (events r) = [] /\
  selections (events r) = [] /\ resolutions (events r) = [] /\
  builds (events r) = [(Protocol (i s), Filters (i s))] /\
  (forall ins, In (Picked (inl ins)) (events r) <-> result r = Some (inl ins)).
Proof.
  unfold pick_instance. run.
  destruct (BuildStrategy _ _ _ _ _ _ _ _) as [[st|err] w1]; cbn [fst snd]; run.
  - destruct (Pick _ st) as [[ins|err] w2]; cbn [fst snd]; run; cbn;
      repeat split; auto; intuition congruence.
  - cbn. repeat split; auto; intuition congruence.
Qed.

Lemma settle_protocol_run ins s :
  settle_protocol ins s = Ret tt (set_i (with_Protocol (protocol_of ins s) (i s)) s) [].
Proof.
  unfold settle_protocol, protocol_of. run.
  destruct (String.eqb (Protocol (i s)) "") eqn:Hp; run; cbn [i set_i Protocol with_Protocol].
  - destruct (String.eqb (GetString _ _ _) "") eqn:Hq; run.
    + destruct (EndpointsMap ins) as [|[k v] m]; run; destruct s; reflexivity.
    + reflexivity.
  - rewrite Hp. run. rewrite with_Protocol_same, set_i_same. reflexivity.
Qed.

Lemma endpoint_of_run ins s :
  endpoint_of ins s =
  match assoc (Protocol (i s)) (EndpointsMap ins) with
  | Some ep => Ret (ep, None) s []
  | None =>
      match Fmt.Sprintf ("No available instance support [" +:+ Protocol (i s)
                           +:+ "] protocol," +:+ " msName: "
                           +:+ MicroServiceName (i s) +:+ " %v")
                        (EndpointsMap ins) with
      | None => Abort (Unmodelled "fmt.Sprintf") s []
      | Some errStr =>
          Ret ("", Some (LBError errStr)) s [Logged None (LBError_Error errStr)]
      end
  end.
Proof.
  unfold endpoint_of, Errorf, unmodelled. run.
  destruct (assoc _ _); [reflexivity|].
  destruct (Fmt.Sprintf _ _); [|reflexivity]. run. reflexivity.
Qed.

(** [getEndpoint] runs as [selects] says. *)
Lemma getEndpoint_selects s : selects s (getEndpoint s).
Proof.
  unfold getEndpoint, getEndpoint_body.
  rewrite run_bind, strategy_constructor_run. cbn [after].
  rewrite run_bind, default_filters_run. cbn [after].
  rewrite after_nil.
  change (set_i _ (set_i _ s)) with (prepared s).
  fold (lookup_events s).
  destruct (GetStrategyPlugin (world s) (name_of s)) as [f|err] eqn:Hlook.
  - rewrite run_bind.
    pose proof (pick_instance_some f (prepared s)) as (Hret & _).
    destruct (pick_instance (Some f) (prepared s)) as [[ins|err] s3 evs3|] eqn:Hpick;
      [| |destruct Hret].
    + rewrite run_bind, settle_protocol_run. cbn [after]. rewrite after_nil.
      rewrite endpoint_of_run. fold (settled ins s3).
      change (Protocol (i (settled ins s3))) with (protocol_of ins s3).
      change (MicroServiceName (i (settled ins s3))) with (MicroServiceName (i s3)).
      fold (mismatch ins s3).
      destruct (assoc (protocol_of ins s3) (EndpointsMap ins)) as [ep|] eqn:Hep.
      * cbn [after]. rewrite app_nil_r, <- app_assoc. eapply selects_chose; eauto.
      * destruct (mismatch ins s3) as [errStr|] eqn:Hmis; cbn [after].
        -- rewrite <- !app_assoc. cbn [app]. eapply selects_mismatch; eauto.
        -- rewrite app_nil_r, <- app_assoc. eapply selects_unmodelled; eauto.
    + cbn -[lookup_events]. rewrite app_nil_r, <- app_assoc. eapply selects_refused; eauto.
  - rewrite run_bind, pick_instance_nil. cbn [after]. rewrite app_nil_r.
    eapply selects_nil; eauto.
Qed.

(** What the engine leaves behind: only the collaborators' state moves. *)
Lemma pick_instance_facts new_strategy s (x : MicroServiceInstance + error) s3 evs3 :
  pick_instance (Some new_strategy) s = Ret x s3 evs3 ->
  i s3 = i s /\ HandlerIndex s3 = HandlerIndex s /\ invResp s3 = invResp s /\
  callTimes s3 = callTimes s /\ respErr s3 = respErr s /\
  advances evs3 = [] /\ callbacks evs3 = [] /\ selections evs3 = [] /\
  resolutions evs3 = [] /\ builds evs3 = [(Protocol (i s), Filters (i s))] /\
  (forall ins, In (Picked (inl ins)) evs3 <-> x = inl ins).
Proof.
  intros Hpick.
  pose proof (pick_instance_some new_strategy s) as H. rewrite Hpick in H.
  cbn [final events result] in H.
  destruct H as (_ & Hs & Ha & Hc & Hsel & Hr & Hb & Hp).
  rewrite Hs. cbn. repeat split; auto.
  - intros Hin. apply Hp in Hin. congruence.
  - intros ->. apply Hp. reflexivity.
Qed.

Lemma lookup_events_quiet s :
  advances (lookup_events s) = [] /\ callbacks (lookup_events s) = [] /\
  selections (lookup_events s) = [] /\ builds (lookup_events s) = [] /\
  resolutions (lookup_events s) = [name_of s] /\
  (forall x, ~ In (Picked x) (lookup_events s)).
Proof.
  unfold lookup_events.
  destruct (GetStrategyPlugin (world s) (name_of s)); cbn; repeat split; auto;
    intros x Hin; intuition discriminate.
Qed.

(** The frame of a selection: what it leaves alone, and what it leaves on
    the call context. *)
Lemma selects_frame s r :
  selects s r ->
  HandlerIndex (final r) = HandlerIndex s /\ invResp (final r) = invResp s /\
  callTimes (final r) = callTimes s /\ respErr (final r) = respErr s /\
  Endpoint (i (final r)) = Endpoint (i s) /\
  SourceMicroService (i (final r)) = SourceMicroService (i s) /\
  MicroServiceName (i (final r)) = MicroServiceName (i s) /\
  Strategy (i (final r)) = name_of s /\
  Filters (i (final r)) = filters_of s.
Proof.
  intros [err Hl|f err s3 evs3 Hl Hpick|f ins s3 evs3 ep Hl Hpick Hep
         |f ins s3 evs3 msg Hl Hpick Hep Hmsg|f ins s3 evs3 Hl Hpick Hep Hmsg];
    try (apply pick_instance_facts in Hpick;
         destruct Hpick as (Hi & Hh & Hv & Hc & Hr & _));
    cbn [final]; unfold settled; cbn; rewrite ?Hi, ?Hh, ?Hv, ?Hc, ?Hr; cbn;
    repeat split; reflexivity.
Qed.

(** The events of a selection. *)
Lemma selects_events s r :
  selects s r ->
  exists evs,
    events r = evs ++ [Selected (ending r)] /\
    advances evs = [] /\ callbacks evs = [] /\ selections evs = [] /\
    resolutions evs = [name_of s] /\
    Forall (eq (Protocol (i s), filters_of s)) (builds evs).
Proof.
  destruct (lookup_events_quiet s) as (La & Lc & Ls & Lb & Lr & _).
  intros [err Hl|f err s3 evs3 Hl Hpick|f ins s3 evs3 ep Hl Hpick Hep
         |f ins s3 evs3 msg Hl Hpick Hep Hmsg|f ins s3 evs3 Hl Hpick Hep Hmsg];
    try (apply pick_instance_facts in Hpick;
         destruct Hpick as (_ & _ & _ & _ & _ & Pa & Pc & Ps & Pr & Pb & _));
    cbn [events ending].
  - exists (lookup_events s). rewrite La, Lc, Ls, Lr, Lb. repeat split; auto.
  - exists (lookup_events s ++ evs3). rewrite <- app_assoc.
    rewrite advances_app, callbacks_app, selections_app, resolutions_app, builds_app.
    rewrite La, Lc, Ls, Lr, Lb, Pa, Pc, Ps, Pr, Pb. cbn. repeat split; auto.
  - exists (lookup_events s ++ evs3). rewrite <- app_assoc.
    rewrite advances_app, callbacks_app, selections_app, resolutions_app, builds_app.
    rewrite La, Lc, Ls, Lr, Lb, Pa, Pc, Ps, Pr, Pb. cbn. repeat split; auto.
  - exists (lookup_events s ++ evs3 ++ [Logged None (LBError_Error msg)]).
    rewrite <- !app_assoc.
    rewrite !advances_app, !callbacks_app, !selections_app, !resolutions_app, !builds_app.
    rewrite La, Lc, Ls, Lr, Lb, Pa, Pc, Ps, Pr, Pb. cbn. repeat split; auto.
  - exists (lookup_events s ++ evs3). rewrite <- app_assoc.
    rewrite advances_app, callbacks_app, selections_app, resolutions_app, builds_app.
    rewrite La, Lc, Ls, Lr, Lb, Pa, Pc, Ps, Pr, Pb. cbn. repeat split; auto.
Qed.

End Selecting.

(** ** The retry loop as a whole *)

Section Retrying.

Context `{C : Collaborators}.

Lemma getEndpoint_events s :
  exists evs,
    events (getEndpoint s) = evs ++ [Selected (ending (getEndpoint s))] /\
    advances evs = [] /\ callbacks evs = [] /\ selections evs = [] /\
    resolutions evs = [name_of s] /\
    Forall (eq (Protocol (i s), filters_of s)) (builds evs).
Proof. apply selects_events, getEndpoint_selects. Qed.

Lemma getEndpoint_quiet s :
  advances (events (getEndpoint s)) = [] /\
  callbacks (events (getEndpoint s)) = [] /\
  selections (events (getEndpoint s)) = [ending (getEndpoint s)].
Proof.
  destruct (getEndpoint_events s) as (evs & -> & Ha & Hc & Hs & _).
  rewrite advances_app, callbacks_app, selections_app, Ha, Hc, Hs. auto.
Qed.

Lemma getEndpoint_frame s :
  let r := getEndpoint s in
  HandlerIndex (final r) = HandlerIndex s /\ invResp (final r) = invResp s /\
  callTimes (final r) = callTimes s /\ respErr (final r) = respErr s /\
  Endpoint (i (final r)) = Endpoint (i s) /\
  SourceMicroService (i (final r)) = SourceMicroService (i s) /\
  MicroServiceName (i (final r)) = MicroServiceName (i s) /\
  Strategy (i (final r)) = name_of s /\
  Filters (i (final r)) = filters_of s.
Proof. apply selects_frame, getEndpoint_selects. Qed.

(** [handleWithRetry], in terms of its loop. *)
Lemma handleWithRetry_run fuel s :
  handleWithRetry fuel s =
  match retry_rounds fuel
          (Z.to_nat (Int.add (GetRetryOnNext (world s) (SourceMicroService (i s))
                                (MicroServiceName (i s))) 1))
          (GetRetryOnSame (world s) (SourceMicroService (i s)) (MicroServiceName (i s)))
          (HandlerIndex s) (set_invResp None s) with
  | Ret Returned s' evs => Ret tt s' evs
  | Ret Fell s' evs =>
      Ret tt (set_invResp (Some (delivered s')) s') (evs ++ [Callback (Some (delivered s'))])
  | Abort why s' evs => Abort why s' evs
  end.
Proof.
  unfold handleWithRetry, cb. run. rewrite run_bind.
  destruct (retry_rounds _ _ _ _ _) as [[|] s' evs|why s' evs]; cbn [after].
  - cbn. rewrite app_nil_r. reflexivity.
  - run. unfold delivered. destruct s' as [c h [resp|] n e w]; run; reflexivity.
  - reflexivity.
Qed.

(** *** The cursor of the chain *)

Lemma attempts_cursor m ep h b fuel k s r :
  attempts m ep h b fuel k s r ->
  Forall (fun a => a.1.1 = h /\ Endpoint a.1.2 = ep) (advances (events r)).
Proof.
  induction 1; cbn; repeat constructor; auto.
  rewrite events_after. cbn. repeat constructor; auto.
Qed.

Lemma rounds_cursor fuel m h n s r :
  rounds fuel m h n s r ->
  Forall (fun a => a.1.1 = h) (advances (events r)).
Proof.
  induction 1 as [s|n s why s1 evs Hsel|n s ep err s1 evs Hsel
                 |n s ep s1 evs why s2 evs2 Hsel Hat
                 |n s ep s1 evs s2 evs2 Hsel Hat
                 |n s ep s1 evs err s2 evs2 r Hsel Hat Hr IH];
    try (pose proof (getEndpoint_quiet s) as (Ha & _); rewrite Hsel in Ha; cbn [events] in Ha);
    try (apply attempts_cursor in Hat; cbn [events] in Hat);
    rewrite ?events_after; cbn [events]; rewrite ?advances_app, ?Ha; cbn [app].
  - constructor.
  - constructor.
  - constructor.
  - eapply Forall_impl; [exact Hat|]. intros a [? _]; assumption.
  - eapply Forall_impl; [exact Hat|]. intros a [? _]; assumption.
  - apply Forall_app; split; [|exact IH].
    eapply Forall_impl; [exact Hat|]. intros a [? _]; assumption.
Qed.

(** C8: in retry mode every advance of the chain, in every attempt of
    every round, starts from the cursor that the chain had when
    [handleWithRetry] was entered. *)
Theorem cursor_restored_before_every_advance fuel (s : State) :
  Forall (fun a => a.1.1 = HandlerIndex s) (advances (events (handleWithRetry fuel s))).
Proof.
  rewrite handleWithRetry_run.
  pose proof (rounds_cursor _ _ _ _ _ _
                (retry_rounds_rounds fuel
                   (GetRetryOnSame (world s) (SourceMicroService (i s)) (MicroServiceName (i s)))
                   (HandlerIndex s)
                   (Z.to_nat (Int.add (GetRetryOnNext (world s) (SourceMicroService (i s))
                                         (MicroServiceName (i s))) 1))
                   (set_invResp None s))) as H.
  destruct (retry_rounds _ _ _ _ _) as [[|] s' evs|why s' evs]; cbn [events] in *.
  - exact H.
  - rewrite advances_app. cbn. rewrite app_nil_r. exact H.
  - exact H.
Qed.

End Retrying.

(** ** Where the retry sequence stops *)

Lemma split_in_tail {A} (D : A -> Prop) (pre tail before : list A) x post :
  pre ++ tail = before ++ x :: post ->
  D x ->
  Forall (fun y => ~ D y) pre ->
  exists t, before = pre ++ t /\ tail = t ++ x :: post.
Proof.
  revert before. induction pre as [|y pre IH]; intros before Heq Hx Hpre.
  - exists before. split; [reflexivity|exact Heq].
  - inversion Hpre as [|? ? Hy Hrest]; subst.
    destruct before as [|z before]; cbn in Heq.
    + injection Heq as -> _. contradiction.
    + injection Heq as -> Heq.
      destruct (IH before Heq Hx Hrest) as (t & -> & ->).
      exists t. split; reflexivity.
Qed.

Section Stopping.

Context `{C : Collaborators}.

Lemma attempts_stop m ep h b fuel k s r :
  attempts m ep h b fuel k s r ->
  Forall (fun e => ~ decisive e) (events r) /\ callbacks (events r) = [] /\
  result r <> Some None
  \/
  exists pre call calls,
    events r = pre ++ [Advance h call calls] /\
    Forall (fun e => ~ decisive e) pre /\ callbacks pre = [] /\
    verdict calls = None /\ result r = Some None /\
    forall resp, latest calls None = Some resp -> invResp (final r) = Some resp.
Proof.
  induction 1 as [k s|fuel k s Hc|fuel k s Hc Hv|fuel k s cause Hc Hv
                 |fuel k s err Hc Hv Hp Hb|fuel k s err r Hc Hv Hp Hb Hat IH].
  - left. cbn. repeat split; [constructor|discriminate].
  - left. cbn. repeat split; [constructor|discriminate].
  - right. exists [], (with_Endpoint ep (i s)), (answers ep h s).
    cbn [events result final app]. repeat split; auto.
    intros resp Hl. unfold attempted. cbn [invResp].
    fold (answers ep h s). rewrite latest_held, Hl. reflexivity.
  - left. cbn. repeat split; [|discriminate].
    repeat constructor. cbn. rewrite Hv. discriminate.
  - left. cbn. repeat split; [|discriminate].
    repeat constructor; cbn; auto. rewrite Hv. discriminate.
  - assert (Hhead : Forall (fun e => ~ decisive e)
                      [Advance h (with_Endpoint ep (i s)) (answers ep h s); BackedOff (b k)]).
    { repeat constructor; cbn; auto. rewrite Hv. discriminate. }
    destruct IH as [(Hall & Hcb & Hres)|(pre & call & calls & Hev & Hpre & Hcb & Hok & Hres & Hl)].
    + left. rewrite events_after, result_after, callbacks_app, Hcb.
      repeat split; auto. apply Forall_app; split; assumption.
    + right.
      exists ([Advance h (with_Endpoint ep (i s)) (answers ep h s); BackedOff (b k)] ++ pre),
        call, calls.
      rewrite events_after, result_after, final_after, Hev, callbacks_app, Hcb, <- app_assoc.
      repeat split; auto. apply Forall_app; split; assumption.
Qed.

Lemma quiet_not_decisive (evs : list Event) :
  advances evs = [] -> selections evs = [] -> Forall (fun e => ~ decisive e) evs.
Proof.
  induction evs as [|e evs IH]; intros Ha Hs; constructor.
  - destruct e; cbn in *; try discriminate; auto.
  - apply IH; destruct e; cbn in *; try discriminate; auto.
Qed.

(** A selection ends with the event that says how, and nothing before it is
    decisive or a callback. *)
Lemma getEndpoint_stop s :
  exists evs,
    events (getEndpoint s) = evs ++ [Selected (ending (getEndpoint s))] /\
    Forall (fun e => ~ decisive e) evs /\ callbacks evs = [].
Proof.
  destruct (getEndpoint_events s) as (evs & Hev & Ha & Hc & Hs & _).
  exists evs. repeat split; auto using quiet_not_decisive.
Qed.

Lemma rounds_stop fuel m h n s r :
  rounds fuel m h n s r ->
  exists pre tail,
    events r = pre ++ tail /\
    Forall (fun e => ~ decisive e) pre /\ callbacks pre = [] /\
    ((tail = [] /\ result r <> Some Returned)
     \/ (exists call calls,
           tail = [Advance h call calls] /\ verdict calls = None /\
           result r = Some Fell /\
           forall resp, latest calls None = Some resp -> invResp (final r) = Some resp)
     \/ (exists err,
           tail = [Selected (Refused err);
                   Callback (Some {| Status := 0; Result := ""; Err := Some err |})] /\
           result r = Some Returned)
     \/ (exists why, tail = [Selected (Crashed why)] /\ result r = None)).
Proof.
  induction 1 as [s|n s why s1 evs Hsel|n s ep err s1 evs Hsel
                 |n s ep s1 evs why s2 evs2 Hsel Hat
                 |n s ep s1 evs s2 evs2 Hsel Hat
                 |n s ep s1 evs err s2 evs2 r Hsel Hat Hr IH];
    try (destruct (getEndpoint_stop s) as (evs0 & Hev & Hnd & Hcb);
         rewrite Hsel in Hev; cbn [events ending] in Hev; subst evs).
  - exists [], []. cbn. repeat split; auto.
  - exists evs0, [Selected (Crashed why)]. cbn [events result]. repeat split; auto.
    right; right; right. exists why. auto.
  - exists evs0, [Selected (Refused err);
                  Callback (Some {| Status := 0; Result := ""; Err := Some err |})].
    cbn [events result]. rewrite <- app_assoc. repeat split; auto.
    right; right; left. exists err. auto.
  - apply attempts_stop in Hat.
    destruct Hat as [(Hall & Hc2 & _)|(? & ? & ? & _ & _ & _ & _ & Hres & _)];
      [|discriminate Hres].
    cbn [events] in *.
    exists ((evs0 ++ [Selected (Chose ep)]) ++ evs2), []. cbn [events result].
    rewrite app_nil_r, !callbacks_app, Hcb, Hc2. repeat split; auto.
    repeat (apply Forall_app; split); auto; repeat constructor; cbn; auto.
  - apply attempts_stop in Hat.
    destruct Hat as [(_ & _ & Hres)|(pre & call & calls & Hev & Hpre & Hc2 & Hok & _ & Hl)];
      [contradiction Hres; reflexivity|].
    cbn [events final] in *. subst evs2.
    exists ((evs0 ++ [Selected (Chose ep)]) ++ pre), [Advance h call calls].
    cbn [events result final]. rewrite <- !app_assoc, !callbacks_app, Hcb, Hc2.
    repeat split; auto.
    + repeat (apply Forall_app; split); auto; repeat constructor; cbn; auto.
    + right; left. exists call, calls. auto.
  - apply attempts_stop in Hat.
    destruct Hat as [(Hall & Hc2 & _)|(? & ? & ? & _ & _ & _ & _ & Hres & _)];
      [|discriminate Hres].
    cbn [events] in *.
    destruct IH as (pre & tail & Hev & Hpre & Hc3 & Htail).
    exists (((evs0 ++ [Selected (Chose ep)]) ++ evs2) ++ pre), tail.
    rewrite events_after, result_after, final_after, Hev, <- !app_assoc.
    rewrite !callbacks_app, Hcb, Hc2, Hc3. repeat split; auto.
    repeat (apply Forall_app; split); auto; repeat constructor; cbn; auto.
Qed.

(** The events of [handleWithRetry]: a part in which nothing is decisive
    and the callback is not called, and then one of five endings. *)
Lemma handleWithRetry_stop fuel (s : State) :
  let r := handleWithRetry fuel s in
  exists pre tail,
    events r = pre ++ tail /\
    Forall (fun e => ~ decisive e) pre /\ callbacks pre = [] /\
    ((exists resp, tail = [Callback (Some resp)] /\ returned r)
     \/ (tail = [] /\ ~ returned r)
     \/ (exists call calls,
           tail = [Advance (HandlerIndex s) call calls;
                   Callback (Some (delivered (final r)))] /\
           verdict calls = None /\ returned r /\
           forall resp, latest calls None = Some resp -> delivered (final r) = resp)
     \/ (exists err,
           tail = [Selected (Refused err);
                   Callback (Some {| Status := 0; Result := ""; Err := Some err |})] /\
           returned r)
     \/ (exists why, tail = [Selected (Crashed why)] /\ ~ returned r)).
Proof.
  cbn zeta. rewrite handleWithRetry_run.
  pose proof (rounds_stop _ _ _ _ _ _
                (retry_rounds_rounds fuel
                   (GetRetryOnSame (world s) (SourceMicroService (i s)) (MicroServiceName (i s)))
                   (HandlerIndex s)
                   (Z.to_nat (Int.add (GetRetryOnNext (world s) (SourceMicroService (i s))
                                         (MicroServiceName (i s))) 1))
                   (set_invResp None s)))
    as (pre & tail & Hev & Hpre & Hcb & Htail).
  destruct (retry_rounds _ _ _ _ _) as [[|] s' evs|why s' evs];
    cbn [events result final returned] in *; subst evs.
  - destruct Htail as [(-> & Hres)|[(call & calls & _ & _ & Hres & _)
                      |[(err & -> & _)|(why & _ & Hres)]]];
      try discriminate Hres; [contradiction Hres; reflexivity|].
    exists pre, [Selected (Refused err);
                 Callback (Some {| Status := 0; Result := ""; Err := Some err |})].
    repeat split; auto. right; right; right; left. exists err. auto.
  - destruct Htail as [(-> & _)|[(call & calls & -> & Hok & _ & Hl)
                      |[(err & _ & Hres)|(why & _ & Hres)]]];
      try discriminate Hres.
    + exists pre, [Callback (Some (delivered s'))]. rewrite app_nil_r.
      repeat split; auto. left. exists (delivered s'). auto.
    + exists pre, [Advance (HandlerIndex s) call calls; Callback (Some (delivered s'))].
      rewrite <- app_assoc. repeat split; auto.
      right; right; left. exists call, calls. repeat split; auto.
      intros resp Hresp. cbn. unfold delivered. rewrite (Hl resp Hresp). reflexivity.
  - destruct Htail as [(-> & _)|[(call & calls & _ & _ & Hres & _)
                      |[(err & _ & Hres)|(why' & -> & _)]]];
      try discriminate Hres.
    + exists pre, []. repeat split; auto.
    + exists pre, [Selected (Crashed why')]. repeat split; auto.
      right; right; right; right. exists why'. auto.
Qed.

End Stopping.

Section Endings.

Context `{C : Collaborators}.

(** C3: in retry mode, once an advance of the chain has reported a response
    without error, nothing follows but the delivery of that response to the
    callback: no further attempt, no further round, and the callback was
    not called before. *)
Theorem success_ends_the_retry_sequence
    fuel (s : State) before index call calls post resp :
  events (handleWithRetry fuel s) = before ++ Advance index call calls :: post ->
  latest calls None = Some resp ->
  Err resp = None ->
  post = [Callback (Some resp)] /\
  callbacks (events (handleWithRetry fuel s)) = [Some resp] /\
  returned (handleWithRetry fuel s).
Proof.
  intros Hev Hlast Herr.
  assert (Hok : verdict calls = None) by (rewrite verdict_latest, Hlast; exact Herr).
  destruct (handleWithRetry_stop fuel s) as (pre & tail & Hsplit & Hpre & Hcb & Htail).
  rewrite Hsplit in Hev.
  destruct (split_in_tail decisive pre tail before _ post Hev Hok Hpre) as (t & -> & Ht).
  rewrite Hsplit, callbacks_app, Hcb.
  destruct Htail as [(r0 & -> & Hret)|[(-> & Hret)|[(call' & calls' & -> & _ & Hret & Hl)
                    |[(err & -> & Hret)|(why & -> & Hret)]]]];
    destruct t as [|e1 [|e2 [|e3 t]]]; cbn in Ht; try discriminate Ht.
  injection Ht as -> -> -> <-.
  rewrite (Hl resp Hlast). cbn. auto.
Qed.

(** C4: in retry mode, once a selection has returned an error, nothing
    follows but the delivery of that error to the callback: no attempt in
    that round, no further round, and the callback was not called before. *)
Theorem selection_failure_ends_the_retry_sequence
    fuel (s : State) before err post :
  events (handleWithRetry fuel s) = before ++ Selected (Refused err) :: post ->
  post = [Callback (Some {| Status := 0; Result := ""; Err := Some err |})] /\
  callbacks (events (handleWithRetry fuel s)) =
    [Some {| Status := 0; Result := ""; Err := Some err |}] /\
  returned (handleWithRetry fuel s).
Proof.
  intros Hev.
  destruct (handleWithRetry_stop fuel s) as (pre & tail & Hsplit & Hpre & Hcb & Htail).
  rewrite Hsplit in Hev.
  destruct (split_in_tail decisive pre tail before _ post Hev I Hpre) as (t & -> & Ht).
  rewrite Hsplit, callbacks_app, Hcb.
  destruct Htail as [(r0 & -> & Hret)|[(-> & Hret)|[(call' & calls' & -> & _ & Hret & Hl)
                    |[(err' & -> & Hret)|(why & -> & Hret)]]]];
    destruct t as [|e1 [|e2 [|e3 t]]]; cbn in Ht; try discriminate Ht.
  injection Ht as -> <-. cbn. auto.
Qed.

End Endings.

(** ** A downstream that always fails *)

Lemma observed_app a b : observed (a ++ b) = observed a ++ observed b.
Proof. unfold observed. rewrite advances_app. apply map_app. Qed.

Lemma observed_attempt index call calls next :
  observed [Advance index call calls; BackedOff next] = [verdict calls].
Proof. reflexivity. Qed.

Lemma verdict_held calls err held :
  verdict calls = Some err ->
  exists resp, latest calls held = Some resp /\ Err resp = Some err.
Proof.
  rewrite verdict_latest, (latest_held calls held).
  destruct (latest calls None) as [resp|]; [|discriminate].
  intros H. exists resp. auto.
Qed.

Section Exhausting.

Context `{C : Collaborators}.

Lemma attempts_callbacks m ep h b fuel k s r :
  attempts m ep h b fuel k s r -> callbacks (events r) = [].
Proof.
  induction 1; cbn; auto. rewrite events_after, callbacks_app. cbn. assumption.
Qed.

Lemma attempts_exhausted m ep h b fuel k s r :
  attempts m ep h b fuel k s r ->
  0 <= m < Int.max ->
  0 <= callTimes s <= m + 1 ->
  (Z.to_nat (m + 1 - callTimes s) < fuel)%nat ->
  Forall steady (events r) ->
  result r = Some (Some (errors_New "retry times expires")) /\
  Z.of_nat (length (advances (events r))) = m + 1 - callTimes s /\
  (callTimes s = m + 1 -> invResp (final r) = invResp s) /\
  (callTimes s < m + 1 ->
   exists resp err,
     invResp (final r) = Some resp /\ Err resp = Some err /\
     last (observed (events r)) = Some (Some err)).
Proof.
  intros Hat Hm.
  assert (Hm1 : Int.add m 1 = m + 1)
    by (apply Int_add_small; unfold Int.min, Int.max in *; lia).
  induction Hat as [k s|fuel k s Hc|fuel k s Hc Hv|fuel k s cause Hc Hv
                   |fuel k s err Hc Hv Hp Hb|fuel k s err r Hc Hv Hp Hb Hat IH];
    intros Hrange Hfuel Hsteady; try rewrite Hm1 in *.
  - lia.
  - cbn. repeat split; auto; lia.
  - inversion Hsteady as [|? ? Hhead _]; subst.
    destruct Hhead as (err & Herr & _). congruence.
  - inversion Hsteady as [|? ? Hhead _]; subst.
    destruct Hhead as (err & Herr & Hnp).
    rewrite Hv in Herr. injection Herr as <-. contradiction Hnp. exact I.
  - inversion Hsteady as [|? ? _ Hrest]; subst.
    inversion Hrest as [|? ? Hstop _]; subst. contradiction.
  - rewrite events_after in Hsteady. apply Forall_app in Hsteady as [_ Hsteady].
    assert (Hnext : callTimes (attempted ep h s) = callTimes s + 1).
    { cbn. apply Int_add_small. unfold Int.min, Int.max in *. lia. }
    destruct IH as (Hres & Hcount & Hsame & Hlast); auto; try lia.
    rewrite events_after, result_after, final_after, advances_app, length_app,
      observed_app.
    split; [exact Hres|]. split; [cbn; lia|]. split; [lia|].
    intros _.
    destruct (verdict_held _ _ (invResp s) Hv) as (resp & Hresp & Herr).
    destruct (Z.eq_dec (callTimes (attempted ep h s)) (m + 1)) as [Heq|Hne].
    + exists resp, err. rewrite (Hsame Heq). cbn [attempted invResp].
      fold (answers ep h s). repeat split; auto.
      assert (Hnone : advances (events r) = []).
      { apply length_zero_iff_nil. lia. }
      rewrite observed_attempt. unfold observed. rewrite Hnone, Hv. reflexivity.
    + destruct Hlast as (resp' & err' & Hr' & He' & Hl'); [lia|].
      exists resp', err'. repeat split; auto.
      rewrite observed_attempt. cbn [app]. rewrite last_cons, Hl'. reflexivity.
Qed.

Lemma rounds_exhausted fuel m h n s r :
  rounds fuel m h n s r ->
  0 <= m < Int.max ->
  (Z.to_nat (m + 1) < fuel)%nat ->
  Forall steady (events r) ->
  result r = Some Fell /\
  callbacks (events r) = [] /\
  Z.of_nat (length (advances (events r))) = Z.of_nat n * (m + 1) /\
  (n <> 0%nat ->
   exists resp err,
     invResp (final r) = Some resp /\ Err resp = Some err /\
     last (observed (events r)) = Some (Some err)).
Proof.
  intros Hrounds Hm Hfuel.
  induction Hrounds as [s|n s why s1 evs Hsel|n s ep err s1 evs Hsel
                       |n s ep s1 evs why s2 evs2 Hsel Hat
                       |n s ep s1 evs s2 evs2 Hsel Hat
                       |n s ep s1 evs err s2 evs2 r Hsel Hat Hr IH];
    intros Hsteady.
  - cbn. repeat split; auto. intros []; reflexivity.
  - exfalso. pose proof (getEndpoint_stop s) as (evs0 & Hev & _).
    rewrite Hsel in Hev. cbn [events ending] in *. subst evs.
    apply Forall_app in Hsteady as [_ Hlast].
    inversion Hlast as [|? ? Hhd _]. destruct Hhd as (ep & Hep). discriminate Hep.
  - exfalso. pose proof (getEndpoint_stop s) as (evs0 & Hev & _).
    rewrite Hsel in Hev. cbn [events ending] in *. subst evs.
    rewrite <- app_assoc in Hsteady. apply Forall_app in Hsteady as [_ Hlast].
    inversion Hlast as [|? ? Hhd _]. destruct Hhd as (ep' & Hep). discriminate Hep.
  - exfalso. cbn [events] in Hsteady. apply Forall_app in Hsteady as [_ Hs2].
    apply attempts_exhausted in Hat as (Hres & _); cbn; auto; try lia;
      first [discriminate Hres | rewrite Z.sub_0_r; exact Hfuel].
  - exfalso. cbn [events] in Hsteady. apply Forall_app in Hsteady as [_ Hs2].
    apply attempts_exhausted in Hat as (Hres & _); cbn; auto; try lia;
      first [discriminate Hres | rewrite Z.sub_0_r; exact Hfuel].
  - rewrite events_after in Hsteady.
    apply Forall_app in Hsteady as [Hhead Hrest].
    apply Forall_app in Hhead as [Hs1 Hs2].
    pose proof (getEndpoint_quiet s) as (Ha & Hc & _).
    rewrite Hsel in Ha, Hc. cbn [events] in Ha, Hc.
    pose proof (attempts_callbacks _ _ _ _ _ _ _ _ Hat) as Hc2. cbn [events] in Hc2.
    apply attempts_exhausted in Hat as (_ & Hcount & _ & Hlast); cbn; auto; try lia;
      try (rewrite Z.sub_0_r; exact Hfuel).
    cbn [events final callTimes set_callTimes] in Hcount, Hlast.
    destruct Hlast as (resp & err2 & Hresp & Herr & Hobs); [lia|].
    destruct (IH Hrest) as (Hres & Hc3 & Hcount3 & Hlast3).
    rewrite events_after, result_after, final_after.
    rewrite !callbacks_app, !advances_app, !length_app, !observed_app.
    rewrite Ha, Hc, Hc2, Hc3. cbn [app length].
    unfold observed at 1. rewrite Ha. cbn [map app].
    split; [exact Hres|]. split; [reflexivity|]. split; [lia|].
    intros _. destruct n as [|n].
    + inversion Hr; subst. cbn [events final]. cbn [observed advances omap map].
      rewrite app_nil_r. exists resp, err2. auto.
    + destruct Hlast3 as (resp3 & err3 & Hresp3 & Herr3 & Hobs3); [discriminate|].
      exists resp3, err3. repeat split; auto.
      rewrite last_app, Hobs3. reflexivity.
Qed.

(** C1: in retry mode with [retryOnNext = n] and [retryOnSame = m], when
    every selection chooses an endpoint, every advance of the chain reports
    an error that is not permanent and the back-off policy never stops, the
    chain is advanced exactly [(n+1)*(m+1)] times, and the one response
    that the callback receives carries the error that the last advance
    reported. *)
Theorem exhausted_retries_advance_count fuel (s : State) n m :
  GetRetryOnNext (world s) (SourceMicroService (i s)) (MicroServiceName (i s)) = n ->
  GetRetryOnSame (world s) (SourceMicroService (i s)) (MicroServiceName (i s)) = m ->
  0 <= n < Int.max ->
  0 <= m < Int.max ->
  (Z.to_nat (m + 1) < fuel)%nat ->
  Forall steady (events (handleWithRetry fuel s)) ->
  returned (handleWithRetry fuel s) /\
  Z.of_nat (length (advances (events (handleWithRetry fuel s)))) = (n + 1) * (m + 1) /\
  exists resp err,
    callbacks (events (handleWithRetry fuel s)) = [Some resp] /\
    Err resp = Some err /\
    last (observed (events (handleWithRetry fuel s))) = Some (Some err).
Proof.
  intros Hn Hm Hnr Hmr Hfuel. rewrite handleWithRetry_run, Hn, Hm.
  assert (Hn1 : Int.add n 1 = n + 1)
    by (apply Int_add_small; unfold Int.min, Int.max in *; lia).
  rewrite Hn1.
  pose proof (retry_rounds_rounds fuel m (HandlerIndex s) (Z.to_nat (n + 1))
                (set_invResp None s)) as Hrounds.
  destruct (retry_rounds _ _ _ _ _) as [[|] s' evs|why s' evs] eqn:Hrun;
    intros Hsteady; cbn [events] in Hsteady;
    try (apply Forall_app in Hsteady as [Hsteady _]);
    destruct (rounds_exhausted _ _ _ _ _ _ Hrounds Hmr Hfuel Hsteady)
      as (Hres & Hcb & Hcount & Hlast);
    try discriminate Hres.
  cbn [events result final returned] in *.
  destruct Hlast as (resp & err & Hresp & Herr & Hobs); [lia|].
  rewrite advances_app, callbacks_app, observed_app, length_app, Hcb.
  change (advances [Callback (Some (delivered s'))]) with (@nil (Z * Invocation * list (option Response))).
  change (observed [Callback (Some (delivered s'))]) with (@nil (option error)).
  change (callbacks [Callback (Some (delivered s'))]) with [Some (delivered s')].
  rewrite Z2Nat.id in Hcount by lia.
  split; [exact I|]. split; [cbn [length]; lia|].
  exists resp, err. unfold delivered. rewrite Hresp, app_nil_r. auto.
Qed.

End Exhausting.

(** ** What stays on the call context from round to round *)

Lemma each_Forall PR PB PA (evs : list Event) :
  Forall (each PR PB PA) evs <->
  Forall PR (resolutions evs) /\ Forall PB (builds evs) /\ Forall PA (advances evs).
Proof.
  induction evs as [|e evs IH].
  - cbn. split; [intros _; repeat split; constructor|constructor].
  - split.
    + intros H. inversion H as [|? ? He Hrest]; subst.
      apply IH in Hrest as (Hr & Hb & Ha).
      destruct e; cbn in *; repeat split; auto.
    + intros (Hr & Hb & Ha). constructor.
      * destruct e; cbn in *; auto;
          first [now inversion Hr | now inversion Hb | now inversion Ha].
      * apply IH. destruct e; cbn in *; repeat split; auto;
          first [now inversion Hr | now inversion Hb | now inversion Ha].
Qed.

Lemma app_split {A} (l1 l2 before : list A) x post :
  l1 ++ l2 = before ++ x :: post ->
  (exists t, l1 = before ++ x :: t /\ post = t ++ l2) \/
  (exists t, before = l1 ++ t /\ l2 = t ++ x :: post).
Proof.
  revert before. induction l1 as [|y l1 IH]; intros before Heq.
  - right. exists before. split; [reflexivity|exact Heq].
  - destruct before as [|z before]; cbn in Heq.
    + injection Heq as -> <-. left. exists l1. split; reflexivity.
    + injection Heq as -> Heq.
      destruct (IH before Heq) as [(t & -> & ->)|(t & -> & ->)].
      * left. exists t. split; reflexivity.
      * right. exists t. split; reflexivity.
Qed.

Lemma advances_none_split (evs before : list Event) index call calls post :
  advances evs = [] -> evs <> before ++ Advance index call calls :: post.
Proof.
  intros Ha ->. rewrite advances_app in Ha. cbn in Ha.
  destruct (advances before); discriminate.
Qed.

Section Pinning.

Context `{C : Collaborators}.

(** An invariant [K] of the call context that selections establish from
    states that satisfy [J], that the rest of the chain keeps, and under
    which the events satisfy [Q]. *)
Variable J : State -> Prop.
Variable K : Invocation -> Prop.
Variable PR : string -> Prop.
Variable PB : string * list string -> Prop.
Variable PA : Z * Invocation * list (option Response) -> Prop.

Hypothesis selection_keeps :
  forall s, J s ->
    Forall (each PR PB PA) (events (getEndpoint s)) /\
    K (i (final (getEndpoint s))).
Hypothesis K_J : forall s, K (i s) -> J s.
Hypothesis K_Endpoint : forall ep c, K c -> K (with_Endpoint ep c).
Hypothesis K_Next : forall w index c, K c -> K (call_after (Next w index c)).
Hypothesis K_PA : forall index c calls, K c -> PA (index, c, calls).

Lemma attempts_invariant m ep h b fuel k s r :
  attempts m ep h b fuel k s r ->
  K (i s) ->
  Forall (each PR PB PA) (events r) /\ K (i (final r)).
Proof.
  induction 1 as [k s|fuel k s Hc|fuel k s Hc Hv|fuel k s cause Hc Hv
                 |fuel k s err Hc Hv Hp Hb|fuel k s err r Hc Hv Hp Hb Hat IH];
    intros HK; cbn [events final attempted i].
  - split; [constructor|exact HK].
  - split; [constructor|exact HK].
  - split; [repeat constructor; cbn|]; auto.
  - split; [repeat constructor; cbn|]; auto.
  - split; [repeat constructor; cbn|]; auto.
  - destruct IH as (Hev & Hfin); [cbn; auto|].
    rewrite events_after, final_after. split; [|exact Hfin].
    apply Forall_app. split; [repeat constructor; cbn; auto|exact Hev].
Qed.

Lemma rounds_invariant fuel m h n s r :
  rounds fuel m h n s r ->
  J s ->
  Forall (each PR PB PA) (events r) /\ J (final r) /\ (n <> 0%nat -> K (i (final r))).
Proof.
  induction 1 as [s|n s why s1 evs Hsel|n s ep err s1 evs Hsel
                 |n s ep s1 evs why s2 evs2 Hsel Hat
                 |n s ep s1 evs s2 evs2 Hsel Hat
                 |n s ep s1 evs err s2 evs2 r Hsel Hat Hr IH];
    intros HJ;
    try (destruct (selection_keeps s HJ) as (Hev & HK);
         rewrite Hsel in Hev, HK; cbn [events final returned] in Hev, HK);
    try (apply attempts_invariant in Hat as (Hev2 & HK2); [|cbn; auto]);
    cbn [events final] in *.
  - split; [constructor|]. split; [exact HJ|congruence].
  - split; [exact Hev|]. split; [apply K_J; exact HK|intros _; exact HK].
  - split; [apply Forall_app; split; [exact Hev|repeat constructor]|].
    split; [apply K_J; exact HK|intros _; exact HK].
  - split; [apply Forall_app; split; assumption|].
    split; [apply K_J; exact HK2|intros _; exact HK2].
  - split; [apply Forall_app; split; assumption|].
    split; [apply K_J; exact HK2|intros _; exact HK2].
  - destruct IH as (Hev3 & HJ3 & HK3); [apply K_J; exact HK2|].
    rewrite events_after, final_after.
    split; [repeat (apply Forall_app; split); assumption|].
    split; [exact HJ3|]. intros _.
    inversion Hr; subst; cbn [final]; try (apply HK3; congruence).
    exact HK2.
Qed.

Lemma attempts_after m ep h b fuel k s r :
  attempts m ep h b fuel k s r ->
  forall before index call calls post,
    events r = before ++ Advance index call calls :: post ->
    K call ->
    Forall (each PR PB PA) post /\ K (i (final r)).
Proof.
  induction 1 as [k s|fuel k s Hc|fuel k s Hc Hv|fuel k s cause Hc Hv
                 |fuel k s err Hc Hv Hp Hb|fuel k s err r Hc Hv Hp Hb Hat IH];
    intros before index call calls post Hev HK; cbn [events final] in *.
  - destruct before; discriminate.
  - destruct before; discriminate.
  - destruct before as [|? [|? ?]]; try discriminate.
    injection Hev as _ <- _ <-. split; [constructor|]. cbn. auto.
  - destruct before as [|? [|? ?]]; try discriminate.
    injection Hev as _ <- _ <-. split; [constructor|]. cbn. auto.
  - destruct before as [|? [|? [|? ?]]]; try discriminate.
    injection Hev as _ <- _ <-. split; [repeat constructor|]. cbn. auto.
  - rewrite events_after in Hev. rewrite final_after.
    destruct before as [|? [|? before]]; try discriminate.
    + injection Hev as _ <- _ <-.
      apply attempts_invariant in Hat as (Hall & Hfin); [|cbn; auto].
      split; [constructor; [exact I|exact Hall]|exact Hfin].
    + cbn in Hev. injection Hev as _ _ Hev. eapply IH; eauto.
Qed.

Lemma rounds_after fuel m h n s r :
  rounds fuel m h n s r ->
  forall before index call calls post,
    events r = before ++ Advance index call calls :: post ->
    K call ->
    Forall (each PR PB PA) post /\ K (i (final r)).
Proof.
  induction 1 as [s|n s why s1 evs Hsel|n s ep err s1 evs Hsel
                 |n s ep s1 evs why s2 evs2 Hsel Hat
                 |n s ep s1 evs s2 evs2 Hsel Hat
                 |n s ep s1 evs err s2 evs2 r Hsel Hat Hr IH];
    intros before index call calls post Hev HK;
    try (pose proof (getEndpoint_quiet s) as (Ha & _);
         rewrite Hsel in Ha; cbn [events] in Ha);
    rewrite ?events_after, ?final_after in *; cbn [events final] in *.
  - destruct before; discriminate.
  - exfalso. eapply advances_none_split; eauto.
  - exfalso. eapply (advances_none_split (evs ++ [Callback _])); [|exact Hev].
    rewrite advances_app, Ha. reflexivity.
  - apply app_split in Hev as [(t & Hev & _)|(t & -> & Hev)].
    + exfalso. eapply advances_none_split; eauto.
    + eapply (attempts_after _ _ _ _ _ _ _ _ Hat); eauto.
  - apply app_split in Hev as [(t & Hev & _)|(t & -> & Hev)].
    + exfalso. eapply advances_none_split; eauto.
    + eapply (attempts_after _ _ _ _ _ _ _ _ Hat); eauto.
  - rewrite <- app_assoc in Hev.
    apply app_split in Hev as [(t & Hev & _)|(t & -> & Hev)].
    { exfalso. eapply advances_none_split; eauto. }
    apply app_split in Hev as [(t' & Hev & ->)|(t' & -> & Hev)].
    + destruct (attempts_after _ _ _ _ _ _ _ _ Hat _ _ _ _ _ Hev HK) as (Hall & Hfin).
      cbn [final] in Hfin.
      destruct (rounds_invariant _ _ _ _ _ _ Hr (K_J _ Hfin)) as (Hall' & _ & HK').
      split; [apply Forall_app; split; assumption|].
      inversion Hr; subst; cbn [final]; try (apply HK'; congruence). exact Hfin.
    + eapply IH; eauto.
Qed.

Lemma handleWithRetry_invariant fuel (s : State) :
  J (set_invResp None s) ->
  Forall (each PR PB PA) (events (handleWithRetry fuel s)).
Proof.
  intros HJ. rewrite handleWithRetry_run.
  pose proof (rounds_invariant _ _ _ _ _ _
                (retry_rounds_rounds fuel
                   (GetRetryOnSame (world s) (SourceMicroService (i s)) (MicroServiceName (i s)))
                   (HandlerIndex s)
                   (Z.to_nat (Int.add (GetRetryOnNext (world s) (SourceMicroService (i s))
                                         (MicroServiceName (i s))) 1))
                   (set_invResp None s)) HJ) as (H & _).
  destruct (retry_rounds _ _ _ _ _) as [[|] s' evs|why s' evs]; cbn [events] in *; auto.
  apply Forall_app; split; [exact H|repeat constructor].
Qed.

Lemma handleWithRetry_after fuel (s : State) before index call calls post :
  events (handleWithRetry fuel s) = before ++ Advance index call calls :: post ->
  K call ->
  Forall (each PR PB PA) post /\ K (i (final (handleWithRetry fuel s))).
Proof.
  rewrite handleWithRetry_run.
  pose proof (rounds_after _ _ _ _ _ _
                (retry_rounds_rounds fuel
                   (GetRetryOnSame (world s) (SourceMicroService (i s)) (MicroServiceName (i s)))
                   (HandlerIndex s)
                   (Z.to_nat (Int.add (GetRetryOnNext (world s) (SourceMicroService (i s))
                                         (MicroServiceName (i s))) 1))
                   (set_invResp None s))) as H.
  destruct (retry_rounds _ _ _ _ _) as [[|] s' evs|why s' evs];
    cbn [events final] in *; intros Hev HK; eauto.
  apply app_split in Hev as [(t & Hev & ->)|(t & -> & Hev)].
  - destruct (H _ _ _ _ _ Hev HK) as (Hall & Hfin).
    split; [apply Forall_app; split; [exact Hall|repeat constructor]|exact Hfin].
  - destruct t as [|? [|? ?]]; discriminate.
Qed.

End Pinning.

(** ** The protocol that a selection leaves on the call context *)

Section Protocol.

Context `{C : Collaborators}.

Lemma protocol_of_kept ins (s : State) :
  Protocol (i s) <> "" -> protocol_of ins s = Protocol (i s).
Proof.
  intros Hp. unfold protocol_of.
  destruct (String.eqb_spec (Protocol (i s)) ""); [contradiction|].
  destruct (String.eqb_spec (Protocol (i s)) ""); [contradiction|reflexivity].
Qed.

Lemma protocol_of_ext ins (s s' : State) :
  Protocol (i s) = Protocol (i s') -> MicroServiceName (i s) = MicroServiceName (i s') ->
  world s = world s' -> protocol_of ins s = protocol_of ins s'.
Proof. intros Hp Hn Hw. unfold protocol_of. rewrite Hp, Hn, Hw. reflexivity. Qed.

Lemma selects_protocol s r :
  selects s r ->
  (Protocol (i s) <> "" -> Protocol (i (final r)) = Protocol (i s)) /\
  (forall ins, In (Picked (inl ins)) (events r) ->
     Protocol (i (final r)) = protocol_of ins (set_world (world (final r)) s)).
Proof.
  destruct (lookup_events_quiet s) as (_ & _ & _ & _ & _ & Lp).
  intros [err Hl|f err s3 evs3 Hl Hpick|f ins s3 evs3 ep Hl Hpick Hep
         |f ins s3 evs3 msg Hl Hpick Hep Hmsg|f ins s3 evs3 Hl Hpick Hep Hmsg];
    try (apply pick_instance_facts in Hpick;
         destruct Hpick as (Hi & _ & _ & _ & _ & _ & _ & _ & _ & _ & Hin));
    cbn [final events].
  - split; [reflexivity|].
    intros ins Hin. apply in_app_or in Hin as [Hin|Hin]; [now apply Lp in Hin|].
    cbn in Hin. intuition discriminate.
  - split; [rewrite Hi; reflexivity|].
    intros ins Hx. apply in_app_or in Hx as [Hx|Hx]; [now apply Lp in Hx|].
    apply in_app_or in Hx as [Hx|Hx]; [apply Hin in Hx; discriminate|].
    cbn in Hx. intuition discriminate.
  - assert (Hs3 : Protocol (i s3) = Protocol (i s)) by (rewrite Hi; reflexivity).
    assert (Hn3 : MicroServiceName (i s3) = MicroServiceName (i s)) by (rewrite Hi; reflexivity).
    split.
    + intros Hp. cbn. rewrite protocol_of_kept; congruence.
    + intros ins' Hx. apply in_app_or in Hx as [Hx|Hx]; [now apply Lp in Hx|].
      apply in_app_or in Hx as [Hx|Hx]; [|cbn in Hx; intuition discriminate].
      apply Hin in Hx. injection Hx as <-. cbn.
      apply protocol_of_ext; cbn; auto.
  - assert (Hs3 : Protocol (i s3) = Protocol (i s)) by (rewrite Hi; reflexivity).
    assert (Hn3 : MicroServiceName (i s3) = MicroServiceName (i s)) by (rewrite Hi; reflexivity).
    split.
    + intros Hp. cbn. rewrite protocol_of_kept; congruence.
    + intros ins' Hx. apply in_app_or in Hx as [Hx|Hx]; [now apply Lp in Hx|].
      apply in_app_or in Hx as [Hx|Hx]; [|cbn in Hx; intuition discriminate].
      apply Hin in Hx. injection Hx as <-. cbn.
      apply protocol_of_ext; cbn; auto.
  - assert (Hs3 : Protocol (i s3) = Protocol (i s)) by (rewrite Hi; reflexivity).
    assert (Hn3 : MicroServiceName (i s3) = MicroServiceName (i s)) by (rewrite Hi; reflexivity).
    split.
    + intros Hp. cbn. rewrite protocol_of_kept; congruence.
    + intros ins' Hx. apply in_app_or in Hx as [Hx|Hx]; [now apply Lp in Hx|].
      apply in_app_or in Hx as [Hx|Hx]; [|cbn in Hx; intuition discriminate].
      apply Hin in Hx. injection Hx as <-. cbn.
      apply protocol_of_ext; cbn; auto.
Qed.

Lemma getEndpoint_protocol s :
  (Protocol (i s) <> "" -> Protocol (i (final (getEndpoint s))) = Protocol (i s)) /\
  (forall ins, In (Picked (inl ins)) (events (getEndpoint s)) ->
     Protocol (i (final (getEndpoint s))) =
     protocol_of ins (set_world (world (final (getEndpoint s))) s)).
Proof. apply selects_protocol, getEndpoint_selects. Qed.

(** The events of a selection, by kind. *)
Lemma getEndpoint_each PR PB PA s :
  PR (name_of s) -> PB (Protocol (i s), filters_of s) ->
  Forall (each PR PB PA) (events (getEndpoint s)).
Proof.
  intros Hr Hb.
  destruct (getEndpoint_events s) as (evs & -> & Ha & _ & _ & Hres & Hbs).
  apply each_Forall.
  rewrite resolutions_app, builds_app, advances_app, Ha, Hres. cbn.
  rewrite !app_nil_r. repeat split; auto.
  eapply Forall_impl; [exact Hbs|]. cbn. intros ? <-. exact Hb.
Qed.

Lemma name_of_kept (s : State) d :
  Strategy (i s) = d -> d <> "" -> name_of s = d.
Proof.
  intros <- Hd. unfold name_of.
  destruct (String.eqb_spec (Strategy (i s)) ""); [contradiction|reflexivity].
Qed.

Lemma filters_of_kept (s : State) F :
  Filters (i s) = F -> F <> [] -> filters_of s = F.
Proof.
  intros <- HF. unfold filters_of.
  destruct (Filters (i s)); [contradiction|reflexivity].
Qed.

End Protocol.

(** ** What is pinned on the call context *)

Section Pinned.

Context `{C : Collaborators}.

(** C9: a call that arrives without a strategy name gets the configured
    default written on its context by the first selection, before the
    registry is asked and whether or not the registry knows the name; when
    that name is not empty and the rest of the chain leaves the strategy of
    the context alone, every lookup of every round asks for that same name
    and every advance of the chain carries it. *)
Theorem default_strategy_pinned fuel (s : State) d :
  Strategy (i s) = "" ->
  GetStrategyName (world s) (SourceMicroService (i s)) (MicroServiceName (i s)) = d ->
  d <> "" ->
  (forall w index c, Strategy (call_after (Next w index c)) = Strategy c) ->
  Strategy (i (final (getEndpoint s))) = d /\
  resolutions (events (getEndpoint s)) = [d] /\
  Forall (eq d) (resolutions (events (handleWithRetry fuel s))) /\
  Forall (fun a => Strategy a.1.2 = d) (advances (events (handleWithRetry fuel s))).
Proof.
  intros Hempty Hd Hne Hnext.
  assert (Hname : name_of s = d).
  { unfold name_of. rewrite Hempty. cbn. exact Hd. }
  split; [|split].
  - destruct (getEndpoint_frame s) as (_ & _ & _ & _ & _ & _ & _ & H & _).
    rewrite H. exact Hname.
  - destruct (getEndpoint_events s) as (evs & -> & _ & _ & _ & Hres & _).
    rewrite resolutions_app, Hres, Hname. reflexivity.
  - assert (H : Forall (each (eq d) (fun _ => True) (fun a => Strategy a.1.2 = d))
                   (events (handleWithRetry fuel s))).
    2: { apply each_Forall in H as (Hr & _ & Ha). split; assumption. }
    apply (handleWithRetry_invariant (fun s => name_of s = d) (fun c => Strategy c = d));
      cbn beta.
    + intros s0 Hs0. split.
      * apply getEndpoint_each; [symmetry; exact Hs0|exact I].
      * destruct (getEndpoint_frame s0) as (_ & _ & _ & _ & _ & _ & _ & H0 & _).
        rewrite H0. exact Hs0.
    + intros s0 Hs0. apply name_of_kept; assumption.
    + intros ep c Hc. exact Hc.
    + intros w index c Hc. rewrite Hnext. exact Hc.
    + intros index c calls Hc. exact Hc.
    + exact Hname.
Qed.

(** C10: a selection leaves on the call context the filters it used, the
    configured ones when the call had none, and, when it picked an
    instance, the protocol it resolved for that instance.  When the rest of
    the chain leaves both alone: with filters that are not empty, every
    round builds its strategy with them and every advance carries them; and
    after an advance that carried a protocol that is not empty, every later
    round builds its strategy with that protocol and every later advance
    carries it. *)
Theorem filters_and_protocol_pinned fuel (s : State) :
  (forall w index c,
     Filters (call_after (Next w index c)) = Filters c /\
     Protocol (call_after (Next w index c)) = Protocol c) ->
  (Filters (i s) = [] ->
   Filters (i (final (getEndpoint s))) = GetServerListFilters (world s)) /\
  Filters (i (final (getEndpoint s))) = filters_of s /\
  (forall ins, In (Picked (inl ins)) (events (getEndpoint s)) ->
     Protocol (i (final (getEndpoint s))) =
     protocol_of ins (set_world (world (final (getEndpoint s))) s)) /\
  (filters_of s <> [] ->
   Forall (fun b => b.2 = filters_of s) (builds (events (handleWithRetry fuel s))) /\
   Forall (fun a => Filters a.1.2 = filters_of s)
     (advances (events (handleWithRetry fuel s)))) /\
  (forall before index call calls post,
     events (handleWithRetry fuel s) = before ++ Advance index call calls :: post ->
     Protocol call <> "" ->
     Forall (fun b => b.1 = Protocol call) (builds post) /\
     Forall (fun a => Protocol a.1.2 = Protocol call) (advances post)).
Proof.
  intros Hnext.
  destruct (getEndpoint_frame s) as (_ & _ & _ & _ & _ & _ & _ & _ & HF).
  split; [|split; [|split; [|split]]].
  - intros Hnil. rewrite HF. unfold filters_of. rewrite Hnil. reflexivity.
  - exact HF.
  - apply getEndpoint_protocol.
  - intros Hne.
    assert (H : Forall (each (fun _ => True) (fun b => b.2 = filters_of s)
                          (fun a => Filters a.1.2 = filters_of s))
                   (events (handleWithRetry fuel s))).
    2: { apply each_Forall in H as (_ & Hb & Ha). split; assumption. }
    apply (handleWithRetry_invariant (fun s0 => filters_of s0 = filters_of s)
             (fun c => Filters c = filters_of s)); cbn beta.
    + intros s0 Hs0. split.
      * apply getEndpoint_each; [exact I|exact Hs0].
      * destruct (getEndpoint_frame s0) as (_ & _ & _ & _ & _ & _ & _ & _ & H0).
        rewrite H0. exact Hs0.
    + intros s0 Hs0. apply filters_of_kept; assumption.
    + intros ep c Hc. exact Hc.
    + intros w index c Hc. destruct (Hnext w index c) as (-> & _). exact Hc.
    + intros index c calls Hc. exact Hc.
    + reflexivity.
  - intros before index call calls post Hev Hne.
    assert (H : Forall (each (fun _ => True) (fun b => b.1 = Protocol call)
                          (fun a => Protocol a.1.2 = Protocol call)) post).
    2: { apply each_Forall in H as (_ & Hb & Ha). split; assumption. }
    eapply (handleWithRetry_after (fun s0 => Protocol (i s0) = Protocol call)
              (fun c => Protocol c = Protocol call)); cbn beta; [..|exact Hev|reflexivity].
    + intros s0 Hs0. split.
      * apply getEndpoint_each; [exact I|exact Hs0].
      * destruct (getEndpoint_protocol s0) as (H0 & _).
        rewrite H0; [exact Hs0|]. rewrite Hs0. exact Hne.
    + intros s0 Hs0. exact Hs0.
    + intros ep c Hc. exact Hc.
    + intros w index' c Hc. destruct (Hnext w index' c) as (_ & ->). exact Hc.
    + intros index' c calls' Hc. exact Hc.
Qed.

End Pinned.

(** ** Without retry *)

Section NoRetry.

Context `{C : Collaborators}.

Lemma forward_run (calls : list (option Response)) (s : State) :
  foldr (fun r rest => cb r;; rest) (mret tt) calls s = Ret tt s (map Callback calls).
Proof.
  induction calls as [|r calls IH]; [reflexivity|].
  cbn [foldr map]. rewrite run_bind.
  change (cb r s) with (Ret tt s [Callback r]). cbn [after]. rewrite IH. reflexivity.
Qed.

Lemma chain_Next_run (s : State) :
  chain_Next cb s =
  Ret tt
    (set_world (world_after (Next (world s) (HandlerIndex s) (i s)))
       (set_i (call_after (Next (world s) (HandlerIndex s) (i s)))
          (set_HandlerIndex (index_after (Next (world s) (HandlerIndex s) (i s))) s)))
    (Advance (HandlerIndex s) (i s) (reported (Next (world s) (HandlerIndex s) (i s)))
     :: map Callback (reported (Next (world s) (HandlerIndex s) (i s)))).
Proof. unfold chain_Next. run. rewrite forward_run. reflexivity. Qed.




Lemma handleWithNoRetry_run (s : State) :
  handleWithNoRetry s =
  match getEndpoint s with
  | Ret (_, Some err) s1 evs =>
      Ret tt s1 (evs ++ [Callback (Some {| Status := 0; Result := ""; Err := Some err |})])
  | Ret (ep, None) s1 evs =>
      after evs (chain_Next cb (set_i (with_Endpoint ep (i s1)) s1))
  | Abort why s1 evs => Abort why s1 evs
  end.
Proof.
  unfold handleWithNoRetry. rewrite run_bind.
  destruct (getEndpoint s) as [[ep [err|]] s1 evs|why s1 evs]; cbn [snd fst after].
  - reflexivity.
  - run. reflexivity.
  - reflexivity.
Qed.



End NoRetry.

(** ** Strings *)

Lemma append_assoc (a b c : string) : ((a +:+ b) +:+ c = a +:+ (b +:+ c))%string.
Proof.
  induction a as [|x a IH]; [reflexivity|].
  change (String x ((a +:+ b) +:+ c) = String x (a +:+ (b +:+ c)))%string.
  f_equal. exact IH.
Qed.

Lemma append_nil_r (a : string) : (a +:+ "" = a)%string.
Proof.
  induction a as [|x a IH]; [reflexivity|].
  change (String x (a +:+ "") = String x a)%string.
  f_equal. exact IH.
Qed.










(** [strings.Split] by ["="]. *)
Lemma Split_from_plain (a field s : string) :
  Strings.has_byte "=" a = false ->
  Strings.Split_from "=" 0 field (a +:+ s) = Strings.Split_from "=" 0 (field +:+ a) s.
Proof.
  revert field. induction a as [|c a IH]; intros field Ha.
  - change ("" +:+ s)%string with s. rewrite append_nil_r. reflexivity.
  - cbn [Strings.has_byte] in Ha.
    destruct (Ascii.eqb_spec "=" c) as [|Hc]; [discriminate|].
    change (String c a +:+ s)%string with (String c (a +:+ s)).
    cbn [Strings.Split_from String.prefix].
    destruct (ascii_dec "=" c) as [|_]; [contradiction|].
    rewrite (IH _ Ha), append_assoc. reflexivity.
Qed.

Lemma Split_from_equals (field s : string) :
  Strings.Split_from "=" 0 field ("=" +:+ s) = field :: Strings.Split_from "=" 0 "" s.
Proof. destruct s; reflexivity. Qed.

Lemma Split_no_equals (a : string) :
  Strings.has_byte "=" a = false -> Strings.Split a "=" = [a].
Proof.
  intros Ha. unfold Strings.Split.
  rewrite <- (append_nil_r a) at 1. rewrite Split_from_plain by exact Ha.
  reflexivity.
Qed.


(** ** The endpoint of the instance that was picked *)

Section Picked.

Context `{C : Collaborators}.



End Picked.

(** ** The session token *)

Section Session.

Context `{C : Collaborators}.

Lemma text_with_equals_not_empty (key tail : string) :
  String.eqb (key +:+ "=" +:+ tail) "" = false.
Proof. destruct key; reflexivity. Qed.

Lemma Split_second_field (key value tail : string) :
  Strings.has_byte "=" key = false ->
  Strings.has_byte "=" value = false ->
  tail = ""%string \/ (exists rest, tail = "=" +:+ rest)%string ->
  exists fields,
    Strings.Split (key +:+ "=" +:+ value +:+ tail) "=" = key :: value :: fields.
Proof.
  intros Hk Hv Htail. unfold Strings.Split.
  rewrite Split_from_plain by exact Hk.
  rewrite Split_from_equals.
  rewrite Split_from_plain by exact Hv.
  change ("" +:+ key)%string with key. change ("" +:+ value)%string with value.
  destruct Htail as [->|(rest & ->)].
  - exists []. reflexivity.
  - rewrite Split_from_equals. eexists. reflexivity.
Qed.

(** C7, as amended: for a request of the transport the token is the value
    of the cookie, empty when the request has no such cookie; for any other
    arguments it is, of the metadata entry of the same key, the text
    between the first [=] and the second one, or the end when there is no
    second one, and it is empty when the entry has no [=] in it or is
    absent. *)
Theorem session_token_resolved (c : Invocation) :
  (forall req, Args c = rest_Request req -> getSessionID c = GetCookie req LBSessionID) /\
  (forall payload key value tail,
     Args c = other_args payload ->
     Strings.has_byte "=" key = false ->
     Strings.has_byte "=" value = false ->
     tail = ""%string \/ (exists rest, tail = "=" +:+ rest)%string ->
     GetContextMetadata (Ctx c) LBSessionID = (key +:+ "=" +:+ value +:+ tail)%string ->
     getSessionID c = value) /\
  (forall payload,
     Args c = other_args payload ->
     Strings.has_byte "=" (GetContextMetadata (Ctx c) LBSessionID) = false ->
     getSessionID c = ""%string).
Proof.
  unfold getSessionID. split; [|split].
  - intros req ->.
    destruct (String.eqb_spec (GetCookie req LBSessionID) "") as [->|_]; reflexivity.
  - intros payload key value tail -> Hk Hv Htail ->.
    rewrite text_with_equals_not_empty. cbn [negb].
    destruct (Split_second_field key value tail Hk Hv Htail) as (fields & ->).
    cbn [length nth].
    destruct (Z.ltb_spec 1 (Z.of_nat (S (S (length fields))))) as [_|Hle]; [reflexivity|lia].
  - intros payload -> Hno.
    destruct (String.eqb_spec (GetContextMetadata (Ctx c) LBSessionID) "") as [_|_];
      [reflexivity|].
    cbn [negb]. rewrite (Split_no_equals _ Hno). reflexivity.
Qed.

(** C2: when the registry does not know the name of the strategy, the
    selection logs that and then calls the constructor that it did not get:
    it panics before the strategy is built, and returns nothing. *)
Theorem unknown_strategy_crashes_selection (s : State) err :
  GetStrategyPlugin (world s) (name_of s) = inr err ->
  events (getEndpoint s) =
    [Resolve (name_of s) false;
     Logged (Some err) (LBError_Error ("Get strategy [" +:+ name_of s +:+ "] failed."));
     Selected (Crashed nil_dereference)] /\
  builds (events (getEndpoint s)) = [] /\
  result (getEndpoint s) = None /\
  ~ returned (getEndpoint s).
Proof.
  intros Hl.
  pose proof (getEndpoint_selects s) as H.
  inversion H as [err' Hl' Heq|f err' s3 evs3 Hl'|f ins s3 evs3 ep Hl'
                 |f ins s3 evs3 msg Hl'|f ins s3 evs3 Hl']; try congruence.
  rewrite Hl. cbn. auto.
Qed.

End Session.

(** ** The statements, in a concrete deployment *)


(** For the metadata entry [lb-session-id=x=y] the resolver returns [x],
    which is not what follows the first [=]. *)
Lemma second_equals_sign_ends_the_token :
  @getSessionID (Scenario.collaborators Scenario.failing)
    (Scenario.with_metadata "lb-session-id=x=y") = "x"%string /\
  Strings.after_first_equals "lb-session-id=x=y" = Some "x=y"%string.
Proof. split; vm_compute; reflexivity. Qed.

(** Decide a statement about a list of events that has been computed. *)
Ltac by_cases_on_events :=
  repeat match goal with
         | |- Forall _ [] => constructor
         | |- Forall _ (_ :: _) => constructor
         | |- True => exact I
         | |- exists _, _ => eexists
         | |- _ /\ _ => split
         | |- _ = _ => reflexivity
         | |- _ -> False => let H := fresh in intros H; first [discriminate H|exact H]
         | |- ~ _ => let H := fresh in intros H; first [discriminate H|exact H]
         end.

Lemma exhausted_retries_advance_count_witness :
  returned (handleWithRetry 5 (Scenario.start Scenario.failing Scenario.bare)) /\
  Z.of_nat (length (advances (events
     (handleWithRetry 5 (Scenario.start Scenario.failing Scenario.bare))))) = (1 + 1) * (1 + 1) /\
  exists resp err,
    callbacks (events (handleWithRetry 5 (Scenario.start Scenario.failing Scenario.bare)))
    = [Some resp] /\
    Err resp = Some err /\
    last (observed (events (handleWithRetry 5 (Scenario.start Scenario.failing Scenario.bare))))
    = Some (Some err).
Proof.
  apply (exhausted_retries_advance_count 5
           (Scenario.start Scenario.failing Scenario.bare) 1 1).
  - reflexivity.
  - reflexivity.
  - unfold Int.max. lia.
  - unfold Int.max. lia.
  - vm_compute. lia.
  - vm_compute. by_cases_on_events.
Defined.

Lemma success_ends_the_retry_sequence_witness :
  drop 7 (Scenario.trace Scenario.recovering 5) = [Callback (Some Scenario.ok)] /\
  callbacks (events (handleWithRetry 5 (Scenario.start Scenario.recovering Scenario.bare)))
  = [Some Scenario.ok] /\
  returned (handleWithRetry 5 (Scenario.start Scenario.recovering Scenario.bare)).
Proof.
  apply (success_ends_the_retry_sequence 5
           (Scenario.start Scenario.recovering Scenario.bare)
           (take 6 (Scenario.trace Scenario.recovering 5))
           (Scenario.advance_at 1 (Scenario.trace Scenario.recovering 5)).1.1
           (Scenario.advance_at 1 (Scenario.trace Scenario.recovering 5)).1.2
           (Scenario.advance_at 1 (Scenario.trace Scenario.recovering 5)).2
           (drop 7 (Scenario.trace Scenario.recovering 5))
           Scenario.ok).
  - vm_compute. reflexivity.
  - vm_compute. reflexivity.
  - reflexivity.
Defined.

Lemma selection_failure_ends_the_retry_sequence_witness :
  drop 12 (Scenario.trace Scenario.drained 5) =
  [Callback (Some {| Status := 0; Result := "";
                     Err := Some (LBError "no available instance") |})] /\
  callbacks (events (handleWithRetry 5 (Scenario.start Scenario.drained Scenario.bare))) =
  [Some {| Status := 0; Result := ""; Err := Some (LBError "no available instance") |}] /\
  returned (handleWithRetry 5 (Scenario.start Scenario.drained Scenario.bare)).
Proof.
  apply (selection_failure_ends_the_retry_sequence 5
           (Scenario.start Scenario.drained Scenario.bare)
           (take 11 (Scenario.trace Scenario.drained 5))
           (LBError "no available instance")
           (drop 12 (Scenario.trace Scenario.drained 5))).
  vm_compute. reflexivity.
Defined.


Lemma default_strategy_pinned_witness :
  Strategy (i (final (getEndpoint (Scenario.start Scenario.failing Scenario.bare))))
  = "RoundRobin"%string /\
  resolutions (events (getEndpoint (Scenario.start Scenario.failing Scenario.bare)))
  = ["RoundRobin"%string] /\
  Forall (eq "RoundRobin"%string)
    (resolutions (events (handleWithRetry 5 (Scenario.start Scenario.failing Scenario.bare)))) /\
  Forall (fun a => Strategy a.1.2 = "RoundRobin"%string)
    (advances (events (handleWithRetry 5 (Scenario.start Scenario.failing Scenario.bare)))).
Proof.
  apply (default_strategy_pinned 5 (Scenario.start Scenario.failing Scenario.bare)).
  - reflexivity.
  - reflexivity.
  - discriminate.
  - intros w index c. reflexivity.
Defined.

Lemma filters_and_protocol_pinned_witness :
  (Forall (fun b => b.2 = ["zone"%string])
     (builds (events (handleWithRetry 5 (Scenario.start Scenario.failing Scenario.bare)))) /\
   Forall (fun a => Filters a.1.2 = ["zone"%string])
     (advances (events (handleWithRetry 5 (Scenario.start Scenario.failing Scenario.bare))))) /\
  (Forall (fun b => b.1 = "http"%string) (builds (drop 5 (Scenario.trace Scenario.failing 5))) /\
   Forall (fun a => Protocol a.1.2 = "http"%string)
     (advances (drop 5 (Scenario.trace Scenario.failing 5)))).
Proof.
  pose proof (filters_and_protocol_pinned 5 (Scenario.start Scenario.failing Scenario.bare)
                (fun w index c => conj eq_refl eq_refl))
    as (_ & _ & _ & Hfilters & Hprotocol).
  split.
  - apply Hfilters. vm_compute. discriminate.
  - assert (Hp : Protocol (Scenario.advance_at 0 (Scenario.trace Scenario.failing 5)).1.2
                 = "http"%string) by (vm_compute; reflexivity).
    rewrite <- Hp.
    apply (Hprotocol (take 4 (Scenario.trace Scenario.failing 5))
             (Scenario.advance_at 0 (Scenario.trace Scenario.failing 5)).1.1
             (Scenario.advance_at 0 (Scenario.trace Scenario.failing 5)).1.2
             (Scenario.advance_at 0 (Scenario.trace Scenario.failing 5)).2
             (drop 5 (Scenario.trace Scenario.failing 5))).
    + vm_compute. reflexivity.
    + rewrite Hp. discriminate.
Defined.


Lemma session_token_resolved_witness :
  @getSessionID (Scenario.collaborators Scenario.failing)
    (Scenario.with_cookies [("lb-session-id", "abc")]) = "abc"%string /\
  @getSessionID (Scenario.collaborators Scenario.failing)
    (Scenario.with_metadata "lb-session-id=xyz") = "xyz"%string /\
  @getSessionID (Scenario.collaborators Scenario.failing) Scenario.bare = ""%string.
Proof.
  split; [|split].
  - exact (proj1 (@session_token_resolved (Scenario.collaborators Scenario.failing)
                    (Scenario.with_cookies [("lb-session-id", "abc")]))
             _ eq_refl).
  - apply (proj1 (proj2 (@session_token_resolved (Scenario.collaborators Scenario.failing)
                           (Scenario.with_metadata "lb-session-id=xyz")))
             "" "lb-session-id" "xyz" "")%string.
    + reflexivity.
    + reflexivity.
    + reflexivity.
    + left. reflexivity.
    + vm_compute. reflexivity.
  - apply (proj2 (proj2 (@session_token_resolved (Scenario.collaborators Scenario.failing)
                           Scenario.bare)) ""%string).
    + reflexivity.
    + vm_compute. reflexivity.
Defined.

Lemma unknown_strategy_crashes_selection_witness :
  events (getEndpoint (Scenario.start Scenario.unregistered Scenario.bare)) =
  [Resolve "RoundRobin" false;
   Logged (Some (errors_New "don't support strategyName [RoundRobin]"))
     "lb: Get strategy [RoundRobin] failed.";
   Selected (Crashed nil_dereference)] /\
  builds (events (getEndpoint (Scenario.start Scenario.unregistered Scenario.bare))) = [] /\
  result (getEndpoint (Scenario.start Scenario.unregistered Scenario.bare)) = None /\
  ~ returned (getEndpoint (Scenario.start Scenario.unregistered Scenario.bare)).
Proof.
  apply (unknown_strategy_crashes_selection
           (Scenario.start Scenario.unregistered Scenario.bare)
           (errors_New "don't support strategyName [RoundRobin]")).
  reflexivity.
Defined.

(** ** More about the retry loop *)

Lemma held_after_app (a b : list Event) held :
  held_after (a ++ b) held = held_after b (held_after a held).
Proof. unfold held_after. rewrite advances_app. apply fold_left_app. Qed.

Lemma held_after_quiet (evs : list Event) held :
  advances evs = [] -> held_after evs held = held.
Proof. unfold held_after. intros ->. reflexivity. Qed.

Lemma sessions_app a b : sessions (a ++ b) = sessions a ++ sessions b.
Proof. apply omap_app. Qed.

Lemma picked_app a b : picked (a ++ b) = picked a ++ picked b.
Proof. apply omap_app. Qed.

Lemma guided_app (a b : list Event) chosen :
  guided chosen (a ++ b) <-> guided chosen a /\ guided (fold_left follow a chosen) b.
Proof.
  revert chosen. induction a as [|e a IH]; intros chosen; cbn [app guided fold_left].
  - tauto.
  - rewrite IH. tauto.
Qed.

(** Events among which the chain is not advanced and no selection ends. *)
Lemma guided_quiet (evs : list Event) chosen :
  advances evs = [] -> selections evs = [] ->
  guided chosen evs /\ fold_left follow evs chosen = chosen.
Proof.
  revert chosen. induction evs as [|e evs IH]; intros chosen Ha Hs; [split; [exact I|reflexivity]|].
  destruct e; cbn in Ha, Hs; try discriminate;
    cbn [guided fold_left follow]; destruct (IH chosen Ha Hs); auto.
Qed.

Section Budget.

Context `{C : Collaborators}.

Lemma attempts_selections m ep h b fuel k s r :
  attempts m ep h b fuel k s r -> selections (events r) = [].
Proof.
  induction 1; cbn; auto. rewrite events_after, selections_app. cbn. assumption.
Qed.

(** One round advances the chain at most [retryOnSame + 1] times. *)
Lemma attempts_bound m ep h b fuel k s r :
  attempts m ep h b fuel k s r ->
  0 <= m < Int.max ->
  0 <= callTimes s <= m + 1 ->
  Z.of_nat (length (advances (events r))) <= m + 1 - callTimes s.
Proof.
  intros Hat Hm.
  assert (Hm1 : Int.add m 1 = m + 1)
    by (apply Int_add_small; unfold Int.min, Int.max in *; lia).
  induction Hat as [k s|fuel k s Hc|fuel k s Hc Hv|fuel k s cause Hc Hv
                   |fuel k s err Hc Hv Hp Hb|fuel k s err r Hc Hv Hp Hb Hat IH];
    intros Hrange; try rewrite Hm1 in *; cbn [events]; try (cbn; lia).
  assert (Hnext : callTimes (attempted ep h s) = callTimes s + 1).
  { cbn. apply Int_add_small. unfold Int.min, Int.max in *. lia. }
  rewrite events_after, advances_app, length_app. cbn [advances omap length].
  rewrite Hnext in IH.
  assert (Hlt : callTimes s < m + 1) by lia.
  assert (IH' := IH ltac:(lia)).
  change (advances [Advance h (with_Endpoint ep (i s)) (answers ep h s); BackedOff (b k)])
    with [(h, with_Endpoint ep (i s), answers ep h s)].
  cbn [length]. lia.
Qed.

Lemma rounds_bound fuel m h n s r :
  rounds fuel m h n s r ->
  0 <= m < Int.max ->
  Z.of_nat (length (advances (events r))) <= Z.of_nat n * (m + 1) /\
  (length (selections (events r)) <= n)%nat.
Proof.
  intros Hrounds Hm.
  induction Hrounds as [s|n s why s1 evs Hsel|n s ep err s1 evs Hsel
                       |n s ep s1 evs why s2 evs2 Hsel Hat
                       |n s ep s1 evs s2 evs2 Hsel Hat
                       |n s ep s1 evs err s2 evs2 r Hsel Hat Hr IH];
    try (pose proof (getEndpoint_quiet s) as (Ha & _ & Hs);
         rewrite Hsel in Ha, Hs; cbn [events ending] in Ha, Hs);
    try (pose proof (attempts_selections _ _ _ _ _ _ _ _ Hat) as Hs2;
         apply attempts_bound in Hat; [|exact Hm|cbn; lia];
         cbn [events callTimes set_callTimes] in Hat, Hs2);
    rewrite ?events_after; cbn [events];
    rewrite ?advances_app, ?selections_app, ?length_app, ?Ha, ?Hs, ?Hs2;
    try change (advances [Callback (Some {| Status := 0; Result := ""; Err := Some err |})])
      with (@nil (Z * Invocation * list (option Response)));
    try change (selections [Callback (Some {| Status := 0; Result := ""; Err := Some err |})])
      with (@nil Selection);
    try change (advances []) with (@nil (Z * Invocation * list (option Response)));
    try change (selections []) with (@nil Selection);
    cbn [length app]; rewrite ?Nat2Z.inj_succ, ?Nat2Z.inj_add; cbn [Z.of_nat].
  - split; lia.
  - split; nia.
  - split; nia.
  - split; nia.
  - split; nia.
  - destruct IH as (IHa & IHs). split; nia.
Qed.

(** With no attempt allowed, a round does not advance the chain. *)
Lemma attempts_idle m ep h b fuel k s r :
  attempts m ep h b fuel k s r ->
  callTimes s = Int.add m 1 ->
  events r = [] /\ final r = s.
Proof. destruct 1; intros Hc; try contradiction; auto. Qed.

Lemma rounds_idle fuel m h n s r :
  rounds fuel m h n s r ->
  Int.add m 1 = 0 ->
  advances (events r) = [].
Proof.
  intros Hrounds Hm.
  induction Hrounds as [s|n s why s1 evs Hsel|n s ep err s1 evs Hsel
                       |n s ep s1 evs why s2 evs2 Hsel Hat
                       |n s ep s1 evs s2 evs2 Hsel Hat
                       |n s ep s1 evs err s2 evs2 r Hsel Hat Hr IH];
    try (pose proof (getEndpoint_quiet s) as (Ha & _);
         rewrite Hsel in Ha; cbn [events] in Ha);
    try (apply attempts_idle in Hat as (Hev2 & _); [|cbn; congruence];
         cbn [events] in Hev2; subst evs2);
    rewrite ?events_after; cbn [events]; rewrite ?advances_app, ?Ha; auto.
Qed.

(** The response that the loop holds when it is left. *)
Lemma attempts_held m ep h b fuel k s r :
  attempts m ep h b fuel k s r ->
  invResp (final r) = held_after (events r) (invResp s).
Proof.
  induction 1 as [k s|fuel k s Hc|fuel k s Hc Hv|fuel k s cause Hc Hv
                 |fuel k s err Hc Hv Hp Hb|fuel k s err r Hc Hv Hp Hb Hat IH];
    cbn [events final]; try reflexivity.
  rewrite events_after, final_after, held_after_app, IH. reflexivity.
Qed.

Lemma rounds_held fuel m h n s r :
  rounds fuel m h n s r ->
  invResp (final r) = held_after (events r) (invResp s) /\
  (result r = Some Fell -> callbacks (events r) = []) /\
  (result r = Some Returned -> exists err, In (Refused err) (selections (events r))).
Proof.
  induction 1 as [s|n s why s1 evs Hsel|n s ep err s1 evs Hsel
                 |n s ep s1 evs why s2 evs2 Hsel Hat
                 |n s ep s1 evs s2 evs2 Hsel Hat
                 |n s ep s1 evs err s2 evs2 r Hsel Hat Hr IH];
    try (pose proof (getEndpoint_quiet s) as (Ha & Hc & Hs);
         pose proof (getEndpoint_frame s) as (_ & Hinv & _);
         rewrite Hsel in Ha, Hc, Hs, Hinv; cbn [events ending final] in Ha, Hc, Hs, Hinv);
    try (pose proof (attempts_callbacks _ _ _ _ _ _ _ _ Hat) as Hc2;
         apply attempts_held in Hat; cbn [events final invResp set_callTimes] in Hat, Hc2);
    rewrite ?events_after, ?final_after, ?result_after; cbn [events final result];
    rewrite ?held_after_app, ?callbacks_app, ?selections_app,
      ?(held_after_quiet evs) by exact Ha.
  - repeat split; auto; discriminate.
  - repeat split; auto; discriminate.
  - split; [rewrite held_after_quiet by reflexivity; exact Hinv|].
    split; [discriminate|]. intros _. exists err. rewrite Hs. cbn. auto.
  - rewrite <- Hinv. repeat split; auto; discriminate.
  - rewrite <- Hinv, Hc, Hc2. repeat split; auto; discriminate.
  - destruct IH as (IHh & IHf & IHr). rewrite <- Hinv, <- Hat, Hc, Hc2.
    split; [exact IHh|]. split; [exact IHf|].
    intros Hres. destruct (IHr Hres) as (err' & Hin). exists err'.
    apply in_or_app. right. exact Hin.
Qed.

Lemma attempts_guided m ep h b fuel k s r :
  attempts m ep h b fuel k s r ->
  guided (Some ep) (events r) /\ fold_left follow (events r) (Some ep) = Some ep.
Proof.
  induction 1 as [k s|fuel k s Hc|fuel k s Hc Hv|fuel k s cause Hc Hv
                 |fuel k s err Hc Hv Hp Hb|fuel k s err r Hc Hv Hp Hb Hat IH];
    cbn [events]; try (cbn; auto; fail).
  rewrite events_after, guided_app, fold_left_app. cbn [guided fold_left follow].
  destruct IH as (IHg & IHf). cbn [with_Endpoint Endpoint]. auto.
Qed.

Lemma getEndpoint_guided s chosen :
  guided chosen (events (getEndpoint s)) /\
  fold_left follow (events (getEndpoint s)) chosen =
  match ending (getEndpoint s) with Chose ep => Some ep | _ => None end.
Proof.
  destruct (getEndpoint_events s) as (evs & -> & Ha & _ & Hs & _).
  destruct (guided_quiet evs chosen Ha Hs) as (Hg & Hf).
  rewrite guided_app, fold_left_app, Hf. cbn [guided fold_left follow].
  destruct (ending (getEndpoint s)); auto.
Qed.

Lemma rounds_guided fuel m h n s r chosen :
  rounds fuel m h n s r -> guided chosen (events r).
Proof.
  intros Hrounds. revert chosen.
  induction Hrounds as [s|n s why s1 evs Hsel|n s ep err s1 evs Hsel
                       |n s ep s1 evs why s2 evs2 Hsel Hat
                       |n s ep s1 evs s2 evs2 Hsel Hat
                       |n s ep s1 evs err s2 evs2 r Hsel Hat Hr IH];
    intros chosen;
    try (pose proof (getEndpoint_guided s chosen) as (Hg & Hf);
         rewrite Hsel in Hg, Hf; cbn [events ending] in Hg, Hf);
    try (apply attempts_guided in Hat as (Hg2 & Hf2); cbn [events] in Hg2, Hf2);
    rewrite ?events_after; cbn [events]; rewrite ?guided_app, ?fold_left_app, ?Hf, ?Hf2;
    cbn [guided]; auto.
Qed.

(** X1: in retry mode the callback of [Handle] is called once when the handler
    returns, with a response that is not nil, and not at all when it does
    not return. *)
Theorem callback_called_once fuel (s : State) :
  (returned (handleWithRetry fuel s) ->
   exists resp, callbacks (events (handleWithRetry fuel s)) = [Some resp]) /\
  (~ returned (handleWithRetry fuel s) ->
   callbacks (events (handleWithRetry fuel s)) = []).
Proof.
  destruct (handleWithRetry_stop fuel s) as (pre & tail & Hev & _ & Hcb & Htail).
  rewrite Hev, callbacks_app, Hcb. cbn [app].
  destruct Htail as [(resp & -> & Hr)|[(-> & Hr)|[(call & calls & -> & _ & Hr & _)
                    |[(err & -> & Hr)|(why & -> & Hr)]]]]; cbn; split; intros H;
    try contradiction; eauto.
Qed.

(** X2: for any chain and any back-off policy, [handleWithRetry] selects at
    most [retryOnNext + 1] times and advances the chain at most
    [(retryOnNext + 1) * (retryOnSame + 1)] times. *)
Theorem retry_budget fuel (s : State) n m :
  GetRetryOnNext (world s) (SourceMicroService (i s)) (MicroServiceName (i s)) = n ->
  GetRetryOnSame (world s) (SourceMicroService (i s)) (MicroServiceName (i s)) = m ->
  0 <= n < Int.max -> 0 <= m < Int.max ->
  Z.of_nat (length (selections (events (handleWithRetry fuel s)))) <= n + 1 /\
  Z.of_nat (length (advances (events (handleWithRetry fuel s)))) <= (n + 1) * (m + 1).
Proof.
  intros Hn Hm Hnr Hmr. rewrite handleWithRetry_run, Hn, Hm.
  assert (Hn1 : Int.add n 1 = n + 1)
    by (apply Int_add_small; unfold Int.min, Int.max in *; lia).
  rewrite Hn1.
  pose proof (rounds_bound _ _ _ _ _ _
                (retry_rounds_rounds fuel m (HandlerIndex s) (Z.to_nat (n + 1))
                   (set_invResp None s)) Hmr) as (Ha & Hs).
  rewrite Z2Nat.id in Ha by lia.
  destruct (retry_rounds _ _ _ _ _) as [[|] s' evs|why s' evs]; cbn [events] in *;
    rewrite ?advances_app, ?selections_app, ?length_app;
    try change (advances [Callback (Some (delivered s'))])
      with (@nil (Z * Invocation * list (option Response)));
    try change (selections [Callback (Some (delivered s'))]) with (@nil Selection);
    cbn [length]; split; lia.
Qed.

(** X3: when [retryOnNext + 1] is not positive, for a negative [retryOnNext]
    and for the largest [int], where the sum wraps around, the loop is not
    entered: nothing is selected, the chain is not advanced, and the
    callback gets an empty response. *)
Theorem no_round_no_selection fuel (s : State) n :
  GetRetryOnNext (world s) (SourceMicroService (i s)) (MicroServiceName (i s)) = n ->
  Int.min <= n < 0 \/ n = Int.max ->
  handleWithRetry fuel s =
  Ret tt (set_invResp (Some Response_zero) s) [Callback (Some Response_zero)].
Proof.
  intros Hn Hrange. rewrite handleWithRetry_run, Hn.
  assert (Hzero : Z.to_nat (Int.add n 1) = 0%nat).
  { destruct Hrange as [Hneg| ->].
    - rewrite Int_add_small by (unfold Int.min, Int.max in *; lia). lia.
    - reflexivity. }
  rewrite Hzero. reflexivity.
Qed.

(** X4: with [retryOnSame = -1] the chain is never advanced: every round
    selects an instance and gives up at once. *)
Theorem no_attempt_no_advance fuel (s : State) :
  GetRetryOnSame (world s) (SourceMicroService (i s)) (MicroServiceName (i s)) = -1 ->
  advances (events (handleWithRetry fuel s)) = [].
Proof.
  intros Hm. rewrite handleWithRetry_run, Hm.
  pose proof (rounds_idle _ _ _ _ _ _
                (retry_rounds_rounds fuel (-1) (HandlerIndex s)
                   (Z.to_nat (Int.add (GetRetryOnNext (world s) (SourceMicroService (i s))
                                         (MicroServiceName (i s))) 1))
                   (set_invResp None s)) eq_refl) as H.
  destruct (retry_rounds _ _ _ _ _) as [[|] s' evs|why s' evs]; cbn [events] in *;
    rewrite ?advances_app, ?H; reflexivity.
Qed.

(** X5: when [handleWithRetry] returns and no selection was refused, what the
    callback gets is the last response that the chain handed over that was
    not nil, whichever attempt of whichever round that was in, and an empty
    response when there was none. *)
Theorem delivered_is_last_response fuel (s : State) :
  returned (handleWithRetry fuel s) ->
  Forall (fun how => exists ep, how = Chose ep) (selections (events (handleWithRetry fuel s))) ->
  callbacks (events (handleWithRetry fuel s)) =
  [Some (default Response_zero (held_after (events (handleWithRetry fuel s)) None))].
Proof.
  rewrite handleWithRetry_run.
  pose proof (rounds_held _ _ _ _ _ _
                (retry_rounds_rounds fuel
                   (GetRetryOnSame (world s) (SourceMicroService (i s)) (MicroServiceName (i s)))
                   (HandlerIndex s)
                   (Z.to_nat (Int.add (GetRetryOnNext (world s) (SourceMicroService (i s))
                                         (MicroServiceName (i s))) 1))
                   (set_invResp None s))) as (Hheld & Hfell & Hret).
  destruct (retry_rounds _ _ _ _ _) as [[|] s' evs|why s' evs];
    cbn [events final result returned] in *; intros Hr Hsel.
  - destruct (Hret eq_refl) as (err & Hin).
    destruct (proj1 (List.Forall_forall _ _) Hsel _ Hin) as (ep & Hep). discriminate Hep.
  - rewrite callbacks_app, (Hfell eq_refl), held_after_app. cbn [app callbacks omap].
    change (held_after [Callback (Some (delivered s'))] (held_after evs None))
      with (held_after evs None).
    change (invResp (set_invResp None s)) with (@None Response) in Hheld.
    unfold delivered. rewrite Hheld. destruct (held_after evs None); reflexivity.
  - contradiction.
Qed.

(** X8: in both modes, every advance of the chain has as the endpoint of its
    call the address that the latest selection before it chose: the chain
    is not advanced before a selection, nor after one that chose none. *)
Theorem advances_follow_selections fuel (s : State) :
  guided None (events (Handle fuel s)).
Proof.
  unfold Handle. run.
  destruct (RetryEnabled _ _ _); cbn [negb].
  - rewrite handleWithRetry_run.
    pose proof (rounds_guided _ _ _ _ _ _ None
                  (retry_rounds_rounds fuel
                     (GetRetryOnSame (world s) (SourceMicroService (i s)) (MicroServiceName (i s)))
                     (HandlerIndex s)
                     (Z.to_nat (Int.add (GetRetryOnNext (world s) (SourceMicroService (i s))
                                           (MicroServiceName (i s))) 1))
                     (set_invResp None s))) as H.
    destruct (retry_rounds _ _ _ _ _) as [[|] s' evs|why s' evs]; cbn [events] in *; auto.
    rewrite guided_app. cbn. auto.
  - rewrite handleWithNoRetry_run.
    pose proof (getEndpoint_guided s None) as (Hg & Hf).
    destruct (getEndpoint s) as [[ep [err|]] s1 evs|why s1 evs]; cbn [events ending] in *.
    + rewrite guided_app. cbn. auto.
    + rewrite chain_Next_run. cbn [after events].
      rewrite guided_app, Hf. cbn [guided i set_i with_Endpoint Endpoint follow].
      repeat split; auto.
      generalize (reported (Next (world (set_i (with_Endpoint ep (i s1)) s1))
                              (HandlerIndex (set_i (with_Endpoint ep (i s1)) s1))
                              (with_Endpoint ep (i s1)))).
      intros calls. induction calls as [|c calls IH]; cbn; auto.
    + exact Hg.
Qed.

End Budget.

(** ** More about a selection *)

Section Selecting.

Context `{C : Collaborators}.

(** The selection engine, call by call. *)
Lemma pick_instance_run new_strategy (s : State) :
  pick_instance (Some new_strategy) s =
  let sessionID :=
    if String.eqb (Strategy (i s)) StrategySessionStickiness
    then getSessionID (i s) else ""%string in
  let built := BuildStrategy (world s) (SourceServiceID (i s)) (MicroServiceName (i s))
                 (Protocol (i s)) sessionID (Filters (i s)) (new_strategy tt)
                 (RouteTags (i s)) in
  match fst built with
  | inr err =>
      Ret (inr err) (set_world (snd built) s)
        [Built (Protocol (i s)) sessionID (Filters (i s)) false]
  | inl st =>
      Ret (match fst (Pick (snd built) st) with
           | inr err => inr (LBError (Error err))
           | inl ins => inl ins
           end)
        (set_world (snd (Pick (snd built) st)) (set_world (snd built) s))
        [Built (Protocol (i s)) sessionID (Filters (i s)) true;
         Picked (fst (Pick (snd built) st))]
  end.
Proof.
  unfold pick_instance. run. cbv zeta.
  destruct (BuildStrategy _ _ _ _ _ _ _ _) as [[st|err] w1]; cbn [fst snd]; run.
  - cbn [world set_world].
    destruct (Pick w1 st) as [[ins|err] w2]; cbn [fst snd]; run; reflexivity.
  - reflexivity.
Qed.

Lemma getSessionID_prepared (s : State) : getSessionID (i (prepared s)) = getSessionID (i s).
Proof. reflexivity. Qed.

Lemma pick_instance_prepared new_strategy (s : State) :
  pick_instance (Some new_strategy) (prepared s) =
  match fst (built_for new_strategy s) with
  | inr err =>
      Ret (inr err) (set_world (snd (built_for new_strategy s)) (prepared s))
        [Built (Protocol (i s)) (token_of s) (filters_of s) false]
  | inl st =>
      Ret (match fst (Pick (snd (built_for new_strategy s)) st) with
           | inr err => inr (LBError (Error err))
           | inl ins => inl ins
           end)
        (set_world (snd (Pick (snd (built_for new_strategy s)) st))
           (set_world (snd (built_for new_strategy s)) (prepared s)))
        [Built (Protocol (i s)) (token_of s) (filters_of s) true;
         Picked (fst (Pick (snd (built_for new_strategy s)) st))]
  end.
Proof. rewrite pick_instance_run. reflexivity. Qed.

Lemma lookup_events_found new_strategy (s : State) :
  GetStrategyPlugin (world s) (name_of s) = inl new_strategy ->
  lookup_events s = [Resolve (name_of s) true].
Proof. intros H. unfold lookup_events. rewrite H. reflexivity. Qed.

(** The runs of a selection whose strategy the registry knows, with all
    their events. *)
Lemma getEndpoint_found new_strategy (s : State) :
  GetStrategyPlugin (world s) (name_of s) = inl new_strategy ->
  getEndpoint s =
  let built := built_for new_strategy s in
  let start := [Resolve (name_of s) true] in
  match fst built with
  | inr err =>
      Ret (""%string, Some err) (set_world (snd built) (prepared s))
        (start ++ [Built (Protocol (i s)) (token_of s) (filters_of s) false;
                   Selected (Refused err)])
  | inl st =>
      let s3 := set_world (snd (Pick (snd built) st)) (set_world (snd built) (prepared s)) in
      match fst (Pick (snd built) st) with
      | inr err =>
          Ret (""%string, Some (LBError (Error err))) s3
            (start ++ [Built (Protocol (i s)) (token_of s) (filters_of s) true;
                       Picked (inr err); Selected (Refused (LBError (Error err)))])
      | inl ins =>
          match assoc (protocol_of ins s3) (EndpointsMap ins) with
          | Some ep =>
              Ret (ep, None) (settled ins s3)
                (start ++ [Built (Protocol (i s)) (token_of s) (filters_of s) true;
                           Picked (inl ins); Selected (Chose ep)])
          | None =>
              match mismatch ins s3 with
              | Some msg =>
                  Ret (""%string, Some (LBError msg)) (settled ins s3)
                    (start ++ [Built (Protocol (i s)) (token_of s) (filters_of s) true;
                               Picked (inl ins); Logged None (LBError_Error msg);
                               Selected (Refused (LBError msg))])
              | None =>
                  Abort (Unmodelled "fmt.Sprintf") (settled ins s3)
                    (start ++ [Built (Protocol (i s)) (token_of s) (filters_of s) true;
                               Picked (inl ins);
                               Selected (Crashed (Unmodelled "fmt.Sprintf"))])
              end
          end
      end
  end.
Proof.
  intros Hl. cbv zeta.
  unfold getEndpoint, getEndpoint_body.
  rewrite run_bind, strategy_constructor_run, Hl. cbn [after].
  rewrite run_bind, default_filters_run. cbn [after].
  rewrite after_nil.
  change (set_i _ (set_i _ s)) with (prepared s).
  rewrite run_bind, pick_instance_prepared.
  change (bool_decide (is_inl (@inl (unit -> StrategyT) error new_strategy))) with true.
  destruct (fst (built_for new_strategy s)) as [st|err]; [|reflexivity].
  destruct (fst (Pick (snd (built_for new_strategy s)) st)) as [ins|err]; [|reflexivity].
  cbn [after].
  rewrite run_bind, settle_protocol_run. cbn [after]. rewrite after_nil.
  rewrite endpoint_of_run.
  set (s3 := set_world _ (set_world _ (prepared s))).
  fold (settled ins s3).
  change (Protocol (i (settled ins s3))) with (protocol_of ins s3).
  change (MicroServiceName (i (settled ins s3))) with (MicroServiceName (i s3)).
  fold (mismatch ins s3).
  destruct (assoc (protocol_of ins s3) (EndpointsMap ins)) as [ep|]; [reflexivity|].
  destruct (mismatch ins s3) as [msg|]; reflexivity.
Qed.

(** The run of a selection whose strategy the registry does not know. *)
Lemma getEndpoint_unknown err (s : State) :
  GetStrategyPlugin (world s) (name_of s) = inr err ->
  getEndpoint s =
  Abort nil_dereference (prepared s)
    [Resolve (name_of s) false;
     Logged (Some err) (LBError_Error ("Get strategy [" +:+ name_of s +:+ "] failed."));
     Selected (Crashed nil_dereference)].
Proof.
  intros Hl.
  unfold getEndpoint, getEndpoint_body.
  rewrite run_bind, strategy_constructor_run, Hl. cbn [after].
  rewrite run_bind, default_filters_run. cbn [after].
  rewrite after_nil.
  change (set_i _ (set_i _ s)) with (prepared s).
  rewrite run_bind, pick_instance_nil. reflexivity.
Qed.

(** Split a selection into its runs. *)
Ltac selection_cases s :=
  let f := fresh "f" in
  let err := fresh "err" in
  let Hl := fresh "Hl" in
  destruct (GetStrategyPlugin (world s) (name_of s)) as [f|err] eqn:Hl;
  [ rewrite (getEndpoint_found f s Hl); cbv zeta;
    let st := fresh "st" in
    let ins := fresh "ins" in
    let ep := fresh "ep" in
    let msg := fresh "msg" in
    destruct (fst (built_for f s)) as [st|?] eqn:?;
    [ destruct (fst (Pick (snd (built_for f s)) st)) as [ins|?] eqn:?;
      [ destruct (assoc (protocol_of ins _) (EndpointsMap ins)) as [ep|] eqn:?;
        [ | destruct (mismatch ins _) as [msg|] eqn:? ] | ] | ]
  | rewrite (getEndpoint_unknown err s Hl) ].

(** X9: of the call context a selection writes the strategy, the filters and
    the protocol, and nothing else: not the endpoint, which is left to the
    caller.  It does not move the cursor of the chain, advance the chain or
    call the callback. *)
Theorem selection_writes_three_fields (s : State) :
  i (final (getEndpoint s)) =
    with_Protocol (Protocol (i (final (getEndpoint s))))
      (with_Filters (filters_of s) (with_Strategy (name_of s) (i s))) /\
  Endpoint (i (final (getEndpoint s))) = Endpoint (i s) /\
  HandlerIndex (final (getEndpoint s)) = HandlerIndex s /\
  invResp (final (getEndpoint s)) = invResp s /\
  advances (events (getEndpoint s)) = [] /\
  callbacks (events (getEndpoint s)) = [].
Proof.
  selection_cases s; cbn [final events]; repeat split; reflexivity.
Qed.

(** X10: the strategy is built with the session token of the call when its
    name is that of session stickiness, and with the empty string for any
    other name, whatever cookies and metadata the call carries; it is not
    built when the registry does not know the name. *)
Theorem session_token_only_for_stickiness (s : State) :
  sessions (events (getEndpoint s)) =
  match GetStrategyPlugin (world s) (name_of s) with
  | inl _ =>
      [if String.eqb (name_of s) StrategySessionStickiness
       then getSessionID (i s) else ""%string]
  | inr _ => []
  end.
Proof.
  selection_cases s; reflexivity.
Qed.

(** X11: an address that a selection returns is the one that the instance
    picked has for the protocol that the selection leaves on the call
    context; an error comes with the empty address. *)
Theorem chosen_endpoint_is_of_the_picked_instance (s : State) :
  (forall ep,
     result (getEndpoint s) = Some (ep, None) ->
     exists ins,
       picked (events (getEndpoint s)) = [inl ins] /\
       assoc (Protocol (i (final (getEndpoint s)))) (EndpointsMap ins) = Some ep) /\
  (forall ep err,
     result (getEndpoint s) = Some (ep, Some err) -> ep = ""%string).
Proof.
  selection_cases s; cbn [result final events]; split;
    try (intros ? [= <-]); try (intros ? ? [= <- _]); try discriminate; try reflexivity.
  exists ins. split; [reflexivity|].
  change (Protocol (i (settled ins ?s3))) with (protocol_of ins s3). assumption.
Qed.

(** X12: an error of [Pick] is returned as an [LBError] with the text of that
    error, and is not logged. *)
Theorem pick_failure_is_wrapped (s : State) err :
  In (inr err) (picked (events (getEndpoint s))) ->
  result (getEndpoint s) = Some (""%string, Some (LBError (Error err))) /\
  logged (events (getEndpoint s)) = [].
Proof.
  selection_cases s; cbn; intros Hin; intuition (try discriminate).
  - injection H as <-. reflexivity.
Qed.

(** X13: an error of [BuildStrategy] is returned as it is: [Pick] is not
    called and nothing is logged.  The strategy is built for the protocol
    that the call asked for, with the filters of the call or else the
    configured ones. *)
Theorem build_failure_is_returned (s : State) new_strategy err :
  GetStrategyPlugin (world s) (name_of s) = inl new_strategy ->
  fst (BuildStrategy (world s) (SourceServiceID (i s)) (MicroServiceName (i s))
         (Protocol (i s)) (token_of s) (filters_of s) (new_strategy tt) (RouteTags (i s)))
  = inr err ->
  result (getEndpoint s) = Some (""%string, Some err) /\
  picked (events (getEndpoint s)) = [] /\
  logged (events (getEndpoint s)) = [].
Proof.
  intros Hl Hbuilt. rewrite (getEndpoint_found new_strategy s Hl). cbv zeta.
  unfold built_for. rewrite Hbuilt. repeat split; reflexivity.
Qed.

End Selecting.

(** ** Keys and tokens *)

Lemma prefix_nil (s : string) : String.prefix "" s = true.
Proof. destruct s; reflexivity. Qed.

Lemma has_byte_app c (a b : string) :
  Strings.has_byte c (a +:+ b) = Strings.has_byte c a || Strings.has_byte c b.
Proof.
  induction a as [|d a IH]; [reflexivity|].
  change (String d a +:+ b)%string with (String d (a +:+ b)).
  cbn [Strings.has_byte]. destruct (Ascii.eqb c d); [reflexivity|exact IH].
Qed.

(** Splitting at dots a text with a dot in it. *)
Lemma Split_from_dot (a b field : string) :
  Strings.Split_from "." 0 field (a +:+ "." +:+ b) =
  Strings.Split_from "." 0 field a ++ Strings.Split_from "." 0 "" b.
Proof.
  revert field. induction a as [|c a IH]; intros field.
  - change ("" +:+ "." +:+ b)%string with (String "." b).
    cbn [Strings.Split_from String.prefix].
    destruct (ascii_dec "." "."); [|contradiction]. rewrite prefix_nil. reflexivity.
  - change (String c a +:+ "." +:+ b)%string with (String c (a +:+ "." +:+ b)).
    cbn [Strings.Split_from String.prefix].
    destruct (ascii_dec "." c) as [_|_].
    + rewrite !prefix_nil. cbn [String.length Nat.sub]. rewrite IH. reflexivity.
    + apply IH.
Qed.

Lemma Split_dot (a b : string) :
  Strings.Split (a +:+ "." +:+ b) "." = Strings.Split a "." ++ Strings.Split b ".".
Proof. apply Split_from_dot. Qed.

(** No field of a text that is split at [=] has a [=] in it. *)
Lemma Split_from_equals_free (s field : string) :
  Strings.has_byte "=" field = false ->
  Forall (fun f => Strings.has_byte "=" f = false) (Strings.Split_from "=" 0 field s).
Proof.
  revert field. induction s as [|c s IH]; intros field Hf.
  - cbn. constructor; [exact Hf|constructor].
  - cbn [Strings.Split_from String.prefix].
    destruct (ascii_dec "=" c) as [_|Hc].
    + rewrite prefix_nil. cbn [String.length Nat.sub].
      constructor; [exact Hf|]. apply IH. reflexivity.
    + apply IH. rewrite has_byte_app, Hf. cbn [Strings.has_byte orb].
      destruct (Ascii.eqb_spec "=" c); [contradiction|reflexivity].
Qed.

Section Keys.

Context `{C : Collaborators}.

(** X14: a key of [genMsKey] splits at its dots into the segments of the
    prefix, those of the source when there is one, those of the destination
    and those of the property: for an empty source the key has no empty
    segment in that place. *)
Theorem genMsKey_segments (prefix src dest property : string) :
  Strings.Split (genMsKey prefix src dest property) "." =
  Strings.Split prefix "." ++
  (if String.eqb src "" then [] else Strings.Split src ".") ++
  Strings.Split dest "." ++ Strings.Split property ".".
Proof.
  unfold genMsKey, genKey.
  destruct (String.eqb src ""); cbn [Strings.Join]; rewrite !Split_dot; reflexivity.
Qed.

(** X15: for arguments that are not a request of the transport, the session
    token has no [=] in it. *)
Theorem metadata_token_has_no_equals (c : Invocation) payload :
  Args c = other_args payload ->
  Strings.has_byte "=" (getSessionID c) = false.
Proof.
  intros Hargs. unfold getSessionID. rewrite Hargs.
  destruct (String.eqb (GetContextMetadata (Ctx c) LBSessionID) ""); [reflexivity|].
  cbn [negb].
  pose proof (Split_from_equals_free (GetContextMetadata (Ctx c) LBSessionID) "" eq_refl)
    as Hall.
  change (Strings.Split_from "=" 0 "" (GetContextMetadata (Ctx c) LBSessionID))
    with (Strings.Split (GetContextMetadata (Ctx c) LBSessionID) "=") in Hall.
  destruct (Strings.Split _ "=") as [|f0 [|f1 fields]]; try reflexivity.
  cbn [length nth].
  destruct (1 <? Z.of_nat (S (S (length fields)))); [|reflexivity].
  inversion Hall as [|? ? _ Hrest]. inversion Hrest. assumption.
Qed.

End Keys.

(** ** How the retry loop ends *)

Lemma latest_silent (calls : list (option Response)) held :
  Forall (eq None) calls -> latest calls held = held.
Proof.
  unfold latest. revert held.
  induction calls as [|r calls IH]; intros held Hall; [reflexivity|].
  inversion Hall as [|? ? <- Hrest]; subst. cbn [fold_left]. apply IH, Hrest.
Qed.

Lemma verdict_silent (calls : list (option Response)) :
  Forall (eq None) calls -> verdict calls = None.
Proof.
  intros Hall. rewrite verdict_latest, (latest_silent _ _ Hall). reflexivity.
Qed.

Lemma not_decisive_selections (evs : list Event) :
  Forall (fun e => ~ decisive e) evs ->
  Forall (fun how => exists ep, how = Chose ep) (selections evs).
Proof.
  induction 1 as [|e evs He _ IH]; [constructor|].
  destruct e as [| | | |[ep|err|why]| | |]; cbn in *; auto.
  - constructor; eauto.
  - contradiction He. exact I.
  - contradiction He. exact I.
Qed.

Section Ending.

Context `{C : Collaborators}.

(** What [handleWithRetry] delivers when it returns. *)
Lemma handleWithRetry_delivers fuel (s : State) :
  returned (handleWithRetry fuel s) ->
  (exists err, In (Refused err) (selections (events (handleWithRetry fuel s)))) \/
  callbacks (events (handleWithRetry fuel s)) =
  [Some (default Response_zero (held_after (events (handleWithRetry fuel s)) None))].
Proof.
  rewrite handleWithRetry_run.
  pose proof (rounds_held _ _ _ _ _ _
                (retry_rounds_rounds fuel
                   (GetRetryOnSame (world s) (SourceMicroService (i s)) (MicroServiceName (i s)))
                   (HandlerIndex s)
                   (Z.to_nat (Int.add (GetRetryOnNext (world s) (SourceMicroService (i s))
                                         (MicroServiceName (i s))) 1))
                   (set_invResp None s))) as (Hheld & Hfell & Hret).
  destruct (retry_rounds _ _ _ _ _) as [[|] s' evs|why s' evs];
    cbn [events final result returned] in *; intros Hr.
  - left. exact (Hret eq_refl).
  - right. rewrite callbacks_app, (Hfell eq_refl), held_after_app. cbn [app callbacks omap].
    change (held_after [Callback (Some (delivered s'))] (held_after evs None))
      with (held_after evs None).
    change (invResp (set_invResp None s)) with (@None Response) in Hheld.
    unfold delivered. rewrite Hheld. destruct (held_after evs None); reflexivity.
  - contradiction.
Qed.

(** X6: an advance of the chain that hands over no response, or only nil
    ones, ends the retry sequence as a success does; the callback then gets
    the last response of the attempts before it, with the error that it
    carries, or an empty response when there was none. *)
Theorem silent_advance_ends_the_retry_sequence
    fuel (s : State) before index call calls post :
  events (handleWithRetry fuel s) = before ++ Advance index call calls :: post ->
  Forall (eq None) calls ->
  post = [Callback (Some (default Response_zero (held_after before None)))] /\
  returned (handleWithRetry fuel s).
Proof.
  intros Hev Hsilent.
  pose proof (verdict_silent calls Hsilent) as Hok.
  pose proof (handleWithRetry_delivers fuel s) as Hdel.
  destruct (handleWithRetry_stop fuel s) as (pre & tail & Hsplit & Hpre & Hcb & Htail).
  rewrite Hsplit in Hev.
  destruct (split_in_tail decisive pre tail before _ post Hev Hok Hpre) as (t & -> & Ht).
  rewrite Hsplit in Hdel.
  destruct Htail as [(r0 & -> & Hret)|[(-> & Hret)|[(call' & calls' & -> & _ & Hret & Hl)
                    |[(err & -> & Hret)|(why & -> & Hret)]]]];
    destruct t as [|e1 [|e2 [|e3 t]]]; cbn in Ht; try discriminate Ht.
  injection Ht as Hindex Hcall Hcalls Hpost. subst index call' calls' post.
  rewrite app_nil_r. split; [|exact Hret].
  destruct (Hdel Hret) as [(err & Hin)|Hc].
  - exfalso. rewrite selections_app in Hin. cbn in Hin. rewrite app_nil_r in Hin.
    pose proof (not_decisive_selections _ Hpre) as Hall.
    destruct (proj1 (List.Forall_forall _ _) Hall _ Hin) as (ep & Hep). discriminate Hep.
  - rewrite callbacks_app, Hcb, held_after_app in Hc. cbn [app] in Hc.
    change (callbacks [Advance (HandlerIndex s) call calls;
                       Callback (Some (delivered (final (handleWithRetry fuel s))))])
      with [Some (delivered (final (handleWithRetry fuel s)))] in Hc.
    change (held_after [Advance (HandlerIndex s) call calls;
                        Callback (Some (delivered (final (handleWithRetry fuel s))))]
              (held_after pre None))
      with (latest calls (held_after pre None)) in Hc.
    rewrite (latest_silent _ _ Hsilent) in Hc.
    injection Hc as ->. reflexivity.
Qed.

(** With enough fuel, [backoff.Retry] around [operation] returns. *)
Lemma attempts_return m ep h b fuel k s r :
  attempts m ep h b fuel k s r ->
  0 <= m < Int.max ->
  0 <= callTimes s <= m + 1 ->
  (Z.to_nat (m + 1 - callTimes s) < fuel)%nat ->
  returned r.
Proof.
  intros Hat Hm.
  assert (Hm1 : Int.add m 1 = m + 1)
    by (apply Int_add_small; unfold Int.min, Int.max in *; lia).
  induction Hat as [k s|fuel k s Hc|fuel k s Hc Hv|fuel k s cause Hc Hv
                   |fuel k s err Hc Hv Hp Hb|fuel k s err r Hc Hv Hp Hb Hat IH];
    intros Hrange Hfuel; try rewrite Hm1 in *; try exact I; [lia|].
  assert (Hnext : callTimes (attempted ep h s) = callTimes s + 1).
  { cbn. apply Int_add_small. unfold Int.min, Int.max in *. lia. }
  apply returned_after. apply IH; rewrite Hnext; lia.
Qed.

Lemma rounds_return fuel m h n s r :
  rounds fuel m h n s r ->
  0 <= m < Int.max ->
  (Z.to_nat (m + 1) < fuel)%nat ->
  returned r \/ exists why, In (Crashed why) (selections (events r)).
Proof.
  intros Hrounds Hm Hfuel.
  induction Hrounds as [s|n s why s1 evs Hsel|n s ep err s1 evs Hsel
                       |n s ep s1 evs why s2 evs2 Hsel Hat
                       |n s ep s1 evs s2 evs2 Hsel Hat
                       |n s ep s1 evs err s2 evs2 r Hsel Hat Hr IH];
    try (apply attempts_return in Hat; [|exact Hm|cbn; lia|cbn; rewrite Z.sub_0_r; exact Hfuel]);
    try (left; exact I); try contradiction.
  - right. exists why. pose proof (getEndpoint_quiet s) as (_ & _ & Hs).
    rewrite Hsel in Hs. cbn [events ending] in Hs |- *. rewrite Hs. left. reflexivity.
  - destruct IH as [Hret|(why & Hin)].
    + left. apply returned_after, Hret.
    + right. exists why. rewrite events_after, selections_app. apply in_or_app. right. exact Hin.
Qed.

(** X7: whatever the chain and the back-off policy do, [handleWithRetry]
    returns unless a selection crashes: the counter of [operation] ends the
    loop of [backoff.Retry] after at most [retryOnSame + 2] iterations. *)
Theorem retry_returns_unless_a_selection_crashes fuel (s : State) m :
  GetRetryOnSame (world s) (SourceMicroService (i s)) (MicroServiceName (i s)) = m ->
  0 <= m < Int.max ->
  (Z.to_nat (m + 1) < fuel)%nat ->
  returned (handleWithRetry fuel s) \/
  exists why, In (Crashed why) (selections (events (handleWithRetry fuel s))).
Proof.
  intros Hm Hrange Hfuel. rewrite handleWithRetry_run, Hm.
  pose proof (rounds_return _ _ _ _ _ _
                (retry_rounds_rounds fuel m (HandlerIndex s)
                   (Z.to_nat (Int.add (GetRetryOnNext (world s) (SourceMicroService (i s))
                                         (MicroServiceName (i s))) 1))
                   (set_invResp None s)) Hrange Hfuel) as H.
  destruct (retry_rounds _ _ _ _ _) as [[|] s' evs|why s' evs]; cbn [events returned] in *;
    auto.
Qed.

End Ending.

(** ** More statements, in a concrete deployment *)

Lemma retry_budget_witness :
  Z.of_nat (length (selections (events
     (handleWithRetry 5 (Scenario.start Scenario.recovering Scenario.bare))))) <= 1 + 1 /\
  Z.of_nat (length (advances (events
     (handleWithRetry 5 (Scenario.start Scenario.recovering Scenario.bare)))))
  <= (1 + 1) * (1 + 1).
Proof.
  apply (retry_budget 5 (Scenario.start Scenario.recovering Scenario.bare) 1 1).
  - reflexivity.
  - reflexivity.
  - unfold Int.max. lia.
  - unfold Int.max. lia.
Defined.

Lemma no_round_no_selection_witness :
  handleWithRetry 5 (Scenario.start Scenario.no_rounds Scenario.bare) =
  Ret tt (set_invResp (Some Response_zero) (Scenario.start Scenario.no_rounds Scenario.bare))
    [Callback (Some Response_zero)].
Proof.
  apply (no_round_no_selection 5 (Scenario.start Scenario.no_rounds Scenario.bare) (-1)).
  - reflexivity.
  - left. unfold Int.min. lia.
Defined.

Lemma no_attempt_no_advance_witness :
  advances (events (handleWithRetry 5 (Scenario.start Scenario.no_attempts Scenario.bare))) = [].
Proof.
  apply (no_attempt_no_advance 5 (Scenario.start Scenario.no_attempts Scenario.bare)).
  reflexivity.
Defined.

Lemma delivered_is_last_response_witness :
  callbacks (events (handleWithRetry 5 (Scenario.start Scenario.recovering Scenario.bare))) =
  [Some (default Response_zero
           (held_after
              (events (handleWithRetry 5 (Scenario.start Scenario.recovering Scenario.bare)))
              None))].
Proof.
  apply (delivered_is_last_response 5 (Scenario.start Scenario.recovering Scenario.bare)).
  - vm_compute. exact I.
  - vm_compute. by_cases_on_events.
Defined.

Lemma silent_advance_ends_the_retry_sequence_witness :
  drop 7 (Scenario.trace Scenario.muted 5) =
  [Callback (Some (default Response_zero
                     (held_after (take 6 (Scenario.trace Scenario.muted 5)) None)))] /\
  returned (handleWithRetry 5 (Scenario.start Scenario.muted Scenario.bare)).
Proof.
  apply (silent_advance_ends_the_retry_sequence 5
           (Scenario.start Scenario.muted Scenario.bare)
           (take 6 (Scenario.trace Scenario.muted 5))
           (Scenario.advance_at 1 (Scenario.trace Scenario.muted 5)).1.1
           (Scenario.advance_at 1 (Scenario.trace Scenario.muted 5)).1.2
           (Scenario.advance_at 1 (Scenario.trace Scenario.muted 5)).2
           (drop 7 (Scenario.trace Scenario.muted 5))).
  - vm_compute. reflexivity.
  - vm_compute. by_cases_on_events.
Defined.

Lemma retry_returns_unless_a_selection_crashes_witness :
  returned (handleWithRetry 5 (Scenario.start Scenario.failing Scenario.bare)) \/
  exists why,
    In (Crashed why)
       (selections (events (handleWithRetry 5 (Scenario.start Scenario.failing Scenario.bare)))).
Proof.
  apply (retry_returns_unless_a_selection_crashes 5
           (Scenario.start Scenario.failing Scenario.bare) 1).
  - reflexivity.
  - unfold Int.max. lia.
  - vm_compute. lia.
Defined.

Lemma session_token_only_for_stickiness_witness :
  sessions (events (getEndpoint
     (Scenario.start Scenario.sticky (Scenario.with_cookies [("lb-session-id", "abc")]))))
  = ["abc"%string] /\
  sessions (events (getEndpoint
     (Scenario.start Scenario.failing (Scenario.with_cookies [("lb-session-id", "abc")]))))
  = [""%string].
Proof.
  split.
  - rewrite (session_token_only_for_stickiness
               (Scenario.start Scenario.sticky
                  (Scenario.with_cookies [("lb-session-id", "abc")]))).
    vm_compute. reflexivity.
  - rewrite (session_token_only_for_stickiness
               (Scenario.start Scenario.failing
                  (Scenario.with_cookies [("lb-session-id", "abc")]))).
    vm_compute. reflexivity.
Defined.

Lemma pick_failure_is_wrapped_witness :
  result (getEndpoint (Scenario.start Scenario.empty_pool Scenario.bare)) =
  Some (""%string, Some (LBError "no available instance")) /\
  logged (events (getEndpoint (Scenario.start Scenario.empty_pool Scenario.bare))) = [].
Proof.
  apply (pick_failure_is_wrapped (Scenario.start Scenario.empty_pool Scenario.bare)
           (errors_New "no available instance")).
  vm_compute. left. reflexivity.
Defined.

Lemma build_failure_is_returned_witness :
  result (getEndpoint (Scenario.start_broken Scenario.failing Scenario.bare)) =
  Some (""%string, Some (errors_New "no provider")) /\
  picked (events (getEndpoint (Scenario.start_broken Scenario.failing Scenario.bare))) = [] /\
  logged (events (getEndpoint (Scenario.start_broken Scenario.failing Scenario.bare))) = [].
Proof.
  apply (build_failure_is_returned (Scenario.start_broken Scenario.failing Scenario.bare)
           (fun _ => tt) (errors_New "no provider")).
  - reflexivity.
  - reflexivity.
Defined.

Lemma metadata_token_has_no_equals_witness :
  Strings.has_byte "="
    (@getSessionID (Scenario.collaborators Scenario.failing)
       (Scenario.with_metadata "lb-session-id=x=y")) = false.
Proof.
  apply (@metadata_token_has_no_equals (Scenario.collaborators Scenario.failing)
           (Scenario.with_metadata "lb-session-id=x=y") ""%string).
  reflexivity.
Defined.
